(** * Msg2All: chunking, chunk translation and the per-language scheduling loop

    A shallow embedding of [Msg2All.py] and the properties of its
    chunker ([chunk_text]), its chunk translator ([translate_full_text])
    and its orchestration loop ([do_translate_all], [main]).

    Python values are modelled as follows.
    - [str] is a sequence of Unicode code points, [list N]; [len] is the
      number of code points, as Python's [len].
    - Python integers that may be negative ([max_chars], [max_workers])
      are [Z]; counters that only count up are [nat].
    - A call that may raise returns a [result]; an exception is kept as
      the text [str(e)] gives for it.
    - A [dict] is an insertion-ordered association list with unique keys. *)

From Stdlib Require Import Ascii String.
From Stdlib Require Import List ZArith NArith Bool Arith Lia Permutation.
Import ListNotations.

Local Open Scope Z_scope.

(** ** Strings *)

Definition str := list N.

Definition len (s : str) : Z := Z.of_nat (length s).

(** ["".join(parts)] *)
Definition join (parts : list str) : str := concat parts.

(** A string literal of the development, read as code points. *)
Definition lit (s : string) : str :=
  map N_of_ascii (list_ascii_of_string s).

Arguments lit s%_string.

Definition str_eq_dec : forall a b : str, {a = b} + {a <> b} :=
  list_eq_dec N.eq_dec.

Definition str_eqb (a b : str) : bool :=
  if str_eq_dec a b then true else false.

(** [bool(x)] for a string or a list: the empty one is false. *)
Definition truthy {A} (x : list A) : bool :=
  match x with [] => false | _ :: _ => true end.

(** ** [str.splitlines(keepends=True)] *)

(** The characters [str.splitlines] ends a line at: LF, VT, FF, CR,
    FS, GS, RS, NEL, LINE SEPARATOR and PARAGRAPH SEPARATOR. *)
Definition is_linebreak (c : N) : bool :=
  existsb (N.eqb c) [10; 11; 12; 13; 28; 29; 30; 133; 8232; 8233]%N.

(** Lines of [s], each with its terminator; CR LF is one terminator; the
    empty string has no line and a last line needs no terminator.  A
    character that is no terminator belongs to the line that starts
    right behind it. *)
Fixpoint splitlines (s : str) : list str :=
  match s with
  | [] => []
  | c :: s' =>
      if is_linebreak c then
        match s' with
        | c' :: s'' =>
            if (c =? 13)%N && (c' =? 10)%N
            then [c; c'] :: splitlines s''
            else [c] :: splitlines s'
        | [] => [[c]]
        end
      else
        match splitlines s' with
        | [] => [[c]]
        | l :: ls => (c :: l) :: ls
        end
  end.

(** ** [chunk_text] *)

(** The [for line in ...] loop of [chunk_text], with its three
    variables [chunks], [buf] and [count], and the flush after it. *)
Fixpoint chunk_loop (max_chars : Z) (lines : list str)
    (chunks : list str) (buf : list str) (count : Z) : list str :=
  match lines with
  | [] =>
      match buf with
      | [] => chunks
      | _ :: _ => chunks ++ [join buf]
      end
  | line :: rest =>
      if (count + len line >? max_chars) && truthy buf
      then chunk_loop max_chars rest (chunks ++ [join buf]) [line] (0 + len line)
      else chunk_loop max_chars rest chunks (buf ++ [line]) (count + len line)
  end.

Definition chunk_text (text : str) (max_chars : Z) : list str :=
  if len text <=? max_chars then [text]
  else chunk_loop max_chars (splitlines text) [] [] 0.

Definition default_max_chars : Z := 4500.

(** ** Exceptions *)

(** An exception, kept as its description: what [str(e)] returns. *)
Inductive exn : Type := Raised (description : str).

Definition str_of_exn (e : exn) : str :=
  match e with Raised d => d end.

Inductive result (A : Type) : Type :=
| Ok (a : A)
| Raise (e : exn).

Arguments Ok {A} a.
Arguments Raise {A} e.

Definition IndexError : exn := Raised (lit "list index out of range").

(** ** The translation service, as one task sees it *)

(** The request dictionary [translate_chunk] builds. *)
Record request : Type := {
  req_parent : str;
  req_contents : list str;
  req_target_language_code : str;
  req_mime_type : str;
  req_source_language_code : option str;
  req_model : option str
}.

(** [client.translate_text] for one task: the answer to the task's
    [k]-th call (counted from 0) is the list of the [translated_text]
    fields of the response, or the exception the call raises. *)
Definition service := nat -> request -> result (list str).

(** A computation that calls the service.  It carries the requests sent
    so far; when it raises, the requests sent until then are still
    there. *)
Definition call (A : Type) : Type :=
  service -> list request -> result A * list request.

Definition ret {A} (a : A) : call A :=
  fun _ sent => (Ok a, sent).

Definition raise {A} (e : exn) : call A :=
  fun _ sent => (Raise e, sent).

Definition bind {A B} (m : call A) (k : A -> call B) : call B :=
  fun svc sent =>
    match m svc sent with
    | (Ok a, sent') => k a svc sent'
    | (Raise e, sent') => (Raise e, sent')
    end.

Notation "x <- m ;; k" := (bind m (fun x => k))
  (at level 61, m at next level, right associativity).

Definition translate_text (req : request) : call (list str) :=
  fun svc sent => (svc (length sent) req, sent ++ [req]).

(** [s.split(sep)] for a one-character separator. *)
Fixpoint split_on (sep : N) (s : str) : list str :=
  match s with
  | [] => [[]]
  | c :: s' =>
      if (c =? sep)%N then [] :: split_on sep s'
      else match split_on sep s' with
           | [] => [[c]]
           | p :: ps => (c :: p) :: ps
           end
  end.

Definition slash : N := 47.
Definition dot : N := 46.
Definition comma : N := 44.

(** [parts[i]], which raises [IndexError] out of range. *)
Definition index {A} (parts : list A) (i : nat) : result A :=
  match nth_error parts i with
  | Some x => Ok x
  | None => Raise IndexError
  end.

Definition model_path (parent model : str) : result str :=
  match index (split_on slash parent) 1 with
  | Raise e => Raise e
  | Ok project =>
      match index (split_on slash parent) 3 with
      | Raise e => Raise e
      | Ok location =>
          Ok (lit "projects/" ++ project ++ lit "/locations/" ++ location
              ++ lit "/models/" ++ model)
      end
  end.

Definition text_plain : str := lit "text/plain".

Definition translate_chunk (parent text_chunk target_lang : str)
    (source_lang : option str) (mime_type : str) (model : option str)
    : call str :=
  let source :=
    match source_lang with
    | Some s => if truthy s then Some s else None
    | None => None
    end in
  let req m := {|
    req_parent := parent;
    req_contents := [text_chunk];
    req_target_language_code := target_lang;
    req_mime_type := mime_type;
    req_source_language_code := source;
    req_model := m |} in
  match model with
  | Some m =>
      if truthy m then
        match model_path parent m with
        | Raise e => raise e
        | Ok path =>
            translations <- translate_text (req (Some path)) ;;
            ret (join translations)
        end
      else
        translations <- translate_text (req None) ;;
        ret (join translations)
  | None =>
      translations <- translate_text (req None) ;;
      ret (join translations)
  end.

(** The [for chunk in chunk_text(text)] loop of [translate_full_text],
    with its variable [pieces]. *)
Fixpoint translate_pieces (parent target_lang : str)
    (source_lang : option str) (chunks : list str) (pieces : list str)
    : call (list str) :=
  match chunks with
  | [] => ret pieces
  | chunk :: rest =>
      piece <- translate_chunk parent chunk target_lang source_lang
                 text_plain None ;;
      translate_pieces parent target_lang source_lang rest (pieces ++ [piece])
  end.

Definition translate_full_text (parent text target_lang : str)
    (source_lang : option str) : call str :=
  pieces <- translate_pieces parent target_lang source_lang
              (chunk_text text default_max_chars) [] ;;
  ret (join pieces).

(** ** Dictionaries *)

(** A Python [dict] with string keys: the entries in insertion order,
    no key twice. *)
Definition dict (V : Type) : Type := list (str * V).

Fixpoint dict_get {V} (d : dict V) (k : str) : option V :=
  match d with
  | [] => None
  | (k', v) :: d' => if str_eqb k' k then Some v else dict_get d' k
  end.

(** [d[k] = v]: a key already there keeps its place. *)
Fixpoint dict_set {V} (d : dict V) (k : str) (v : V) : dict V :=
  match d with
  | [] => [(k, v)]
  | (k', v') :: d' =>
      if str_eqb k' k then (k', v) :: d' else (k', v') :: dict_set d' k v
  end.

Definition dict_keys {V} (d : dict V) : list str := map fst d.

(** [d.get(k, default)] *)
Definition dict_get_default {V} (d : dict V) (k : str) (default : V) : V :=
  match dict_get d k with
  | Some v => v
  | None => default
  end.

(** ** Paths, files and the terminal *)

(** Paths are kept as they are written.  [Path(p).name] is what follows
    the last separator and [Path(p).stem] drops the last suffix of it. *)
Fixpoint rfind (c : N) (s : str) : option nat :=
  match s with
  | [] => None
  | x :: s' =>
      match rfind c s' with
      | Some i => Some (S i)
      | None => if (x =? c)%N then Some O else None
      end
  end.

Definition path_name (p : str) : str := last (split_on slash p) [].

Definition path_stem (p : str) : str :=
  let name := path_name p in
  match rfind dot name with
  | Some i =>
      if (0 <? i)%nat && (i <? length name - 1)%nat then firstn i name else name
  | None => name
  end.

(** [Path(directory, name)] *)
Definition path_join (directory name : str) : str :=
  directory ++ [slash] ++ name.

(** A line the program prints.  A progress line is
    [[completed/total] glyph lang_code rest]: on success the glyph is the
    check mark and [rest] is the display name in brackets or nothing, on
    failure the glyph is the cross and [rest] is the error text. *)
Inductive line : Type :=
| Detected (source_lang : str)
| Found (supported targets : nat)
| Starting
| Progress (completed total : nat) (ok : bool) (lang_code rest : str)
| Done
| SomeFailed
| FailedItem (lang_code err : str)
| AllSucceeded.

(** What a run changes outside itself: the text files and the
    terminal. *)
Record world : Type := {
  files : dict str;
  stdout : list line
}.

(** [print(...)]: the line goes to the terminal.  A terminal that
    refuses a line is not modelled. *)
Definition print (l : line) (w : world) : world :=
  {| files := files w; stdout := stdout w ++ [l] |}.

Record SupportedLanguage : Type := {
  language_code : str;
  display_name : str
}.

(** How [Path.write_text] can raise.  It opens the file for writing,
    which empties it, and then writes: it raises at the open and leaves
    the path as it was, or it raises after the open and leaves in the
    file what was written until then. *)
Inductive write_failure : Type :=
| AtOpen (e : exn)
| AfterOpen (e : exn) (residue : str).

Definition failure_exn (failure : write_failure) : exn :=
  match failure with
  | AtOpen e => e
  | AfterOpen e _ => e
  end.

(** What a run meets: the translation client, the platform and the
    order in which the pool finishes the tasks. *)
Record environment : Type := {
  (** [client.get_supported_languages]: the [languages] of the response *)
  get_supported_languages : str -> result (list SupportedLanguage);
  (** [client.detect_language]: the codes of the [languages] of the
      response, the most likely first *)
  detect_language : str -> str -> str -> result (list str);
  (** [client.translate_text] as the [i]-th submitted task sees it *)
  client_translate_text : nat -> service;
  (** [Path.mkdir(parents=True, exist_ok=True)] on this path raises *)
  mkdir_error : str -> option exn;
  (** writing this path raises, at the open or after it *)
  write_error : str -> option write_failure;
  (** completion order of a pool of the given size: at each step, the
      position among the tasks still pending of the one that finishes
      next (taken modulo their number; submission order once the list
      is used up) *)
  completion : Z -> list nat
}.

(** [Path(path).read_text(encoding="utf-8")] *)
Definition read_text (w : world) (path : str) : result str :=
  match dict_get (files w) path with
  | Some content => Ok content
  | None => Raise (Raised (lit "[Errno 2] No such file or directory"))
  end.

(** [Path(path).write_text(data, encoding="utf-8")] *)
Definition write_text (env : environment) (path data : str) (w : world)
    : result unit * world :=
  match write_error env path with
  | Some (AtOpen e) => (Raise e, w)
  | Some (AfterOpen e residue) =>
      (Raise e, {| files := dict_set (files w) path residue; stdout := stdout w |})
  | None => (Ok tt, {| files := dict_set (files w) path data; stdout := stdout w |})
  end.

(** [ensure_outdir]: only whether the [mkdir] raises is kept, the
    world holding text files and no directories; the string returned
    is not used by its caller. *)
Definition ensure_outdir (env : environment) (path : str) : result str :=
  match mkdir_error env path with
  | Some e => Raise e
  | None => Ok path
  end.

(** ** Core API wrappers *)

Definition get_parent (project_id location : str) : str :=
  lit "projects/" ++ project_id ++ lit "/locations/" ++ location.

Definition list_supported_languages (env : environment) (parent : str)
    : result (list SupportedLanguage) :=
  get_supported_languages env parent.

Definition detect_source_language (env : environment) (parent text : str)
    : result str :=
  match detect_language env parent (firstn 5000 text) text_plain with
  | Raise e => Raise e
  | Ok languages => index languages 0
  end.

(** ** The worklist *)

(** [a or b] on strings *)
Definition str_or (a b : str) : str := if truthy a then a else b.

Definition name_by_code (supported : list SupportedLanguage) : dict str :=
  fold_left
    (fun d lang =>
       dict_set d (language_code lang)
         (str_or (display_name lang) (language_code lang)))
    supported [].

(** [code in exclude] *)
Definition contains (exclude : list str) (code : str) : bool :=
  existsb (str_eqb code) exclude.

(** The [for code in supported_codes] loop that fills [to_translate]. *)
Fixpoint build_worklist (names : dict str) (source_lang : str)
    (exclude : list str) (supported_codes : list str) (to_translate : list (str * str))
    : list (str * str) :=
  match supported_codes with
  | [] => to_translate
  | code :: rest =>
      if str_eqb code source_lang then
        build_worklist names source_lang exclude rest to_translate
      else if contains exclude code then
        build_worklist names source_lang exclude rest to_translate
      else
        build_worklist names source_lang exclude rest
          (to_translate ++ [(code, dict_get_default names code code)])
  end.

Definition worklist (supported : list SupportedLanguage) (source_lang : str)
    (exclude : list str) : list (str * str) :=
  build_worklist (name_by_code supported) source_lang exclude
    (map language_code supported) [].

(** ** The pool and the completion loop *)

(** A submitted task with its entry of [future_map] and what
    [future.result()] gives once it is done. *)
Record future : Type := {
  fut_code : str;
  fut_name : str;
  fut_result : result str
}.

(** [{ex.submit(_task, code): (code, name) for code, name in to_translate}],
    the [i]-th submitted task first. *)
Fixpoint submit_all (task : nat -> str -> result str) (i : nat)
    (to_translate : list (str * str)) : list future :=
  match to_translate with
  | [] => []
  | (code, name) :: rest =>
      {| fut_code := code; fut_name := name; fut_result := task i code |}
      :: submit_all task (S i) rest
  end.

(** The [k]-th element of a list and the others. *)
Fixpoint take_out {A} (k : nat) (l : list A) {struct l} : option (A * list A) :=
  match l with
  | [] => None
  | x :: l' =>
      match k with
      | O => Some (x, l')
      | S k' =>
          match take_out k' l' with
          | Some (y, others) => Some (y, x :: others)
          | None => None
          end
      end
  end.

(** [concurrent.futures.as_completed]: every future once, in the order
    they finish. *)
Fixpoint as_completed (picks : list nat) (pending : list future)
    : list future :=
  match picks with
  | [] => pending
  | k :: picks' =>
      match take_out (k mod length pending) pending with
      | Some (f, others) => f :: as_completed picks' others
      | None => []
      end
  end.

(** The variables of the loop and the world as it is then. *)
Record loop_state : Type := {
  results : dict str;
  errors : dict str;
  completed : nat;
  now : world
}.

Definition out_file (input_path outdir lang_code : str) : str :=
  path_join outdir (path_stem input_path ++ [dot] ++ lang_code ++ lit ".txt").

Definition label_rest (include_language_names : bool) (lang_name : str) : str :=
  if include_language_names && truthy lang_name
  then lit " (" ++ lang_name ++ lit ")"
  else [].

(** The [except Exception as e] branch, entered with the [results] and
    the world of that moment. *)
Definition on_exception (total : nat) (st : loop_state) (lang_code : str)
    (results_then : dict str) (world_then : world) (e : exn) : loop_state :=
  {| results := results_then;
     errors := dict_set (errors st) lang_code (str_of_exn e);
     completed := S (completed st);
     now := print (Progress (S (completed st)) total false lang_code (str_of_exn e))
              world_then |}.

(** One turn of [for future in as_completed(future_map)]. *)
Definition loop_body (env : environment) (input_path outdir : str)
    (include_language_names : bool) (total : nat)
    (st : loop_state) (f : future) : loop_state :=
  let lang_code := fut_code f in
  let lang_name := fut_name f in
  match fut_result f with
  | Raise e => on_exception total st lang_code (results st) (now st) e
  | Ok translated =>
      let results' := dict_set (results st) lang_code translated in
      match write_text env (out_file input_path outdir lang_code) translated (now st) with
      | (Raise e, world_then) => on_exception total st lang_code results' world_then e
      | (Ok _, written) =>
          {| results := results';
             errors := errors st;
             completed := S (completed st);
             now := print (Progress (S (completed st)) total true lang_code
                             (label_rest include_language_names lang_name))
                      written |}
      end
  end.

(** [_task], as the [i]-th submitted task. *)
Definition _task (env : environment) (parent text source_lang : str)
    (i : nat) (lang_code : str) : result str :=
  fst (translate_full_text parent text lang_code (Some source_lang)
         (client_translate_text env i) []).

Definition ValueError_max_workers : exn :=
  Raised (lit "max_workers must be greater than 0").

(** The body of the [with concurrent.futures.ThreadPoolExecutor(...)]
    block of [do_translate_all]: the tasks are submitted and the loop
    takes them as they finish, from the empty [results] and [errors]. *)
Definition completion_loop (env : environment)
    (parent text source_lang input_path outdir : str)
    (include_language_names : bool) (max_workers : Z)
    (to_translate : list (str * str)) (w : world) : loop_state :=
  let future_map := submit_all (_task env parent text source_lang) 0 to_translate in
  let total := length future_map in
  fold_left (loop_body env input_path outdir include_language_names total)
    (as_completed (completion env max_workers) future_map)
    {| results := []; errors := []; completed := 0; now := print Starting w |}.

(** The block itself: the pool refuses a size below 1. *)
Definition translate_concurrently (env : environment)
    (parent text source_lang input_path outdir : str)
    (include_language_names : bool) (max_workers : Z)
    (to_translate : list (str * str)) (w : world) : result loop_state :=
  if max_workers <=? 0 then Raise ValueError_max_workers
  else Ok (completion_loop env parent text source_lang input_path outdir
             include_language_names max_workers to_translate w).

Definition summary (errors : dict str) (w : world) : world :=
  if truthy errors then
    fold_left (fun w' item => print (FailedItem (fst item) (snd item)) w')
      errors (print SomeFailed (print Done w))
  else print AllSucceeded (print Done w).

Definition do_translate_all (env : environment)
    (project_id input_path outdir : str) (include_language_names : bool)
    (exclude : list str) (max_workers : Z) (w : world) : result unit * world :=
  let parent := get_parent project_id (lit "global") in
  match read_text w input_path with
  | Raise e => (Raise e, w)
  | Ok text =>
  match list_supported_languages env parent with
  | Raise e => (Raise e, w)
  | Ok supported =>
  let supported_codes := map language_code supported in
  match detect_source_language env parent text with
  | Raise e => (Raise e, w)
  | Ok source_lang =>
  let to_translate := worklist supported source_lang exclude in
  let w1 := print (Found (length supported_codes) (length to_translate))
              (print (Detected source_lang) w) in
  match ensure_outdir env outdir with
  | Raise e => (Raise e, w1)
  | Ok _ =>
  match translate_concurrently env parent text source_lang input_path outdir
          include_language_names max_workers to_translate w1 with
  | Raise e => (Raise e, w1)
  | Ok st => (Ok tt, summary (errors st) (now st))
  end end end end end.

(** ** Command line *)

(** The characters [str.strip] removes. *)
Definition is_space (c : N) : bool :=
  ((9 <=? c) && (c <=? 13) || (28 <=? c) && (c <=? 32)
   || (8192 <=? c) && (c <=? 8202)
   || existsb (N.eqb c) [133; 160; 5760; 8232; 8233; 8239; 8287; 12288])%N.

Fixpoint lstrip (s : str) : str :=
  match s with
  | [] => []
  | c :: s' => if is_space c then lstrip s' else s
  end.

Definition strip (s : str) : str := rev (lstrip (rev (lstrip s))).

(** The parsed arguments. *)
Record Namespace : Type := {
  arg_project : str;
  arg_input : str;
  arg_outdir : str;
  arg_exclude : str;
  arg_workers : Z
}.

Definition parse_exclude (s : str) : list str :=
  map strip (filter (fun x => truthy (strip x)) (split_on comma s)).

Definition main (env : environment) (args : Namespace) (w : world)
    : result unit * world :=
  do_translate_all env (arg_project args) (arg_input args) (arg_outdir args)
    true (parse_exclude (arg_exclude args)) (Z.max 1 (arg_workers args)) w.

(** The worker bound as the specification words it: a configured value
    below 1 becomes 1, any other value is kept. *)
Definition spec_coerced_workers (configured : Z) : Z :=
  if configured <? 1 then 1 else configured.

(** The request [translate_full_text] sends for one chunk. *)
Definition chunk_request (parent target_lang : str) (source_lang : option str)
    (chunk : str) : request :=
  {| req_parent := parent;
     req_contents := [chunk];
     req_target_language_code := target_lang;
     req_mime_type := text_plain;
     req_source_language_code :=
       match source_lang with
       | Some s => if truthy s then Some s else None
       | None => None
       end;
     req_model := None |}.

(** A document of 500 lines of nine letters, 5000 characters. *)
Definition long_text : str :=
  concat (repeat (lit "abcdefghi
") 500).

(** A service that answers a task's first call by the text it was sent
    and raises on every later call. *)
Definition second_call_fails : service :=
  fun k req =>
    match k with
    | O => Ok (req_contents req)
    | S _ => Raise (Raised (lit "503 unavailable"))
    end.

(** The listing of the end-to-end example: English, French, German. *)
Definition three_languages : list SupportedLanguage :=
  [ {| language_code := lit "en"; display_name := lit "English" |};
    {| language_code := lit "fr"; display_name := lit "French" |};
    {| language_code := lit "de"; display_name := [] |} ].

(** The codes that pass both tests of the worklist loop. *)
Definition scheduled (source_lang : str) (exclude : list str) (code : str) : bool :=
  negb (str_eqb code source_lang) && negb (contains exclude code).

(** What the loop holds for one language: its entry of [results], its
    entry of [errors] and its output file. *)
Definition kept (input_path outdir : str) (st : loop_state) (lang_code : str)
    : option str * option str * option str :=
  (dict_get (results st) lang_code,
   dict_get (errors st) lang_code,
   dict_get (files (now st)) (out_file input_path outdir lang_code)).

(** What the turn of the loop for the future [f] makes of these three. *)
Definition turn (env : environment) (input_path outdir : str) (f : future)
    (before : option str * option str * option str)
    : option str * option str * option str :=
  match fut_result f with
  | Raise e => (fst (fst before), Some (str_of_exn e), snd before)
  | Ok translated =>
      match write_error env (out_file input_path outdir (fut_code f)) with
      | Some (AtOpen e) => (Some translated, Some (str_of_exn e), snd before)
      | Some (AfterOpen e residue) =>
          (Some translated, Some (str_of_exn e), Some residue)
      | None => (Some translated, snd (fst before), Some translated)
      end
  end.

(** The fields of a progress line. *)
Definition line_completed (l : line) : option nat :=
  match l with Progress completed _ _ _ _ => Some completed | _ => None end.

Definition line_total (l : line) : option nat :=
  match l with Progress _ total _ _ _ => Some total | _ => None end.

Definition line_code (l : line) : option str :=
  match l with Progress _ _ _ lang_code _ => Some lang_code | _ => None end.

(** ** Stubs for concrete runs *)

(** The stub of the end-to-end example: the translation of a text is the
    target code, a colon and the text. *)
Definition tagging : service :=
  fun _ req =>
    Ok (map (fun t => req_target_language_code req ++ lit ":" ++ t)
          (req_contents req)).

Definition stub_env (services : nat -> service)
    (unwritable : str -> option write_failure)
    : environment :=
  {| get_supported_languages := fun _ => Ok three_languages;
     detect_language := fun _ _ _ => Ok [lit "en"];
     client_translate_text := services;
     mkdir_error := fun _ => None;
     write_error := unwritable;
     completion := fun _ => [1%nat] |}.

Definition hello_world : str := lit "Hello
World
".

Definition stub_parent : str := get_parent (lit "p") (lit "global").

Definition input_txt : world :=
  {| files := [(lit "input.txt", hello_world)]; stdout := [] |}.

(** A file system on which [out/input.fr.txt] cannot be opened for
    writing, a directory of that name being in the way. *)
Definition fr_unwritable (path : str) : option write_failure :=
  if str_eqb path (lit "out/input.fr.txt")
  then Some (AtOpen (Raised (lit "[Errno 21] Is a directory: 'out/input.fr.txt'")))
  else None.

(** A file system that is full when [out/input.fr.txt] is written: the
    file is opened, and so emptied, and the write raises. *)
Definition fr_disk_full (path : str) : option write_failure :=
  if str_eqb path (lit "out/input.fr.txt")
  then Some (AfterOpen (Raised (lit "[Errno 28] No space left on device")) [])
  else None.

(** The arguments with another worker count. *)
Definition with_workers (args : Namespace) (n : Z) : Namespace :=
  {| arg_project := arg_project args;
     arg_input := arg_input args;
     arg_outdir := arg_outdir args;
     arg_exclude := arg_exclude args;
     arg_workers := n |}.

(** The services of a run in which the task for French, the first one
    submitted, fails at its second chunk. *)
Definition fr_fails_at_second_chunk (i : nat) : service :=
  match i with
  | O => second_call_fails
  | S _ => tagging
  end.

(** A command line that asks for no worker at all. *)
Definition zero_workers : Namespace :=
  {| arg_project := lit "p";
     arg_input := lit "input.txt";
     arg_outdir := lit "out";
     arg_exclude := [];
     arg_workers := 0 |}.

(** ** Notions for the statements about the chunker *)

(** Consecutive groups of lines are filled greedily when a group,
    together with the first line of the next group, is longer than
    [max_chars]. *)
Fixpoint greedy (max_chars : Z) (groups : list (list str)) : Prop :=
  match groups with
  | g1 :: ((g2 :: _) as later) =>
      match g2 with
      | l :: _ => max_chars < len (join g1) + len l
      | [] => True
      end
      /\ greedy max_chars later
  | _ => True
  end.

(** A detection service that looks at nothing but the length of its
    sample. *)
Definition by_length_env : environment :=
  {| get_supported_languages := fun _ => Ok three_languages;
     detect_language := fun _ sample _ =>
       if (length sample <? 5000)%nat then Ok [lit "en"] else Ok [];
     client_translate_text := fun _ => tagging;
     mkdir_error := fun _ => None;
     write_error := fun _ => None;
     completion := fun _ => [] |}.

(** ** Notions for the statements about the command line *)

(** [sep.join(parts)] for a one-character separator. *)
Fixpoint intercalate (sep : N) (parts : list str) : str :=
  match parts with
  | [] => []
  | [p] => p
  | p :: rest => p ++ sep :: intercalate sep rest
  end.

(** No white space in front. *)
Definition starts_clean (s : str) : bool :=
  match s with
  | [] => true
  | c :: _ => negb (is_space c)
  end.

(** No white space at either end. *)
Definition trimmed (s : str) : bool :=
  starts_clean s && starts_clean (rev s).

(** ** Notions for the statements about the output of a run *)

(** The code and the error text of a progress line that reports a
    failure. *)
Definition line_failure (l : line) : option (str * str) :=
  match l with
  | Progress _ _ false lang_code rest => Some (lang_code, rest)
  | _ => None
  end.

(** The failures a list of progress lines reports, in the order of the
    lines. *)
Fixpoint failures (lines : list line) : list (str * str) :=
  match lines with
  | [] => []
  | l :: rest =>
      match line_failure l with
      | Some failure => failure :: failures rest
      | None => failures rest
      end
  end.

(** The lines that close a run in which these failures were reported. *)
Definition closing (failed : list (str * str)) : list line :=
  match failed with
  | [] => [AllSucceeded]
  | _ :: _ => SomeFailed :: map (fun item => FailedItem (fst item) (snd item)) failed
  end.

(** * Properties *)

(** ** The chunker *)

Lemma len_app (a b : str) : len (a ++ b) = len a + len b.
Proof. unfold len. rewrite length_app. lia. Qed.

Lemma len_nonneg (s : str) : 0 <= len s.
Proof. unfold len. lia. Qed.

Lemma join_app (a b : list str) : join (a ++ b) = join a ++ join b.
Proof. apply concat_app. Qed.

Lemma join_single (s : str) : join [s] = s.
Proof. unfold join. simpl. apply app_nil_r. Qed.

(** Induction on a string that may step over two characters at once, as
    [splitlines] does at CR LF. *)
Lemma str_ind2 (P : str -> Prop) :
  P [] ->
  (forall c s, P s -> (forall c' s', s = c' :: s' -> P s') -> P (c :: s)) ->
  forall s, P s.
Proof.
  intros Hnil Hcons.
  assert (H : forall s, P s /\ (forall c' s', s = c' :: s' -> P s')).
  { induction s as [|c s [IH1 IH2]].
    - split; [exact Hnil | discriminate].
    - split.
      + apply Hcons; assumption.
      + intros c' s' E. injection E as _ <-. exact IH1. }
  intro s. apply H.
Qed.

Lemma splitlines_cons (c : N) (s : str) :
  splitlines (c :: s) =
  if is_linebreak c then
    match s with
    | c' :: s'' =>
        if (c =? 13)%N && (c' =? 10)%N
        then [c; c'] :: splitlines s''
        else [c] :: splitlines s
    | [] => [[c]]
    end
  else
    match splitlines s with
    | [] => [[c]]
    | l :: ls => (c :: l) :: ls
    end.
Proof. reflexivity. Qed.

Lemma join_cons (l : str) (ls : list str) : join (l :: ls) = l ++ join ls.
Proof. reflexivity. Qed.

Lemma splitlines_join (s : str) : join (splitlines s) = s.
Proof.
  induction s as [|c s IH1 IH2] using str_ind2; [reflexivity|].
  rewrite splitlines_cons. destruct (is_linebreak c).
  - destruct s as [|c' s'']; [reflexivity|].
    destruct ((c =? 13)%N && (c' =? 10)%N).
    + rewrite join_cons, (IH2 c' s'' eq_refl). reflexivity.
    + rewrite join_cons, IH1. reflexivity.
  - destruct (splitlines s) as [|l ls] eqn:E.
    + cbn in IH1. now subst s.
    + rewrite join_cons in *. now rewrite <- IH1.
Qed.

Lemma splitlines_line (s l : str) :
  In l (splitlines s) -> splitlines l = [l].
Proof.
  revert l. induction s as [|c s IH1 IH2] using str_ind2; [contradiction|].
  intros l. rewrite splitlines_cons. destruct (is_linebreak c) eqn:Hc.
  - destruct s as [|c' s''].
    + intros [<-|[]]. rewrite splitlines_cons, Hc. reflexivity.
    + destruct ((c =? 13)%N && (c' =? 10)%N) eqn:Hcr.
      * intros [<-|Hin]; [|now apply (IH2 c' s'' eq_refl)].
        rewrite splitlines_cons, Hc, Hcr. reflexivity.
      * intros [<-|Hin]; [|now apply IH1].
        rewrite splitlines_cons, Hc. reflexivity.
  - destruct (splitlines s) as [|l0 ls] eqn:E.
    + intros [<-|[]]. rewrite splitlines_cons, Hc. reflexivity.
    + intros [<-|Hin].
      * rewrite splitlines_cons, Hc.
        now rewrite (IH1 l0 (or_introl eq_refl)).
      * apply IH1. now right.
Qed.

Lemma chunk_loop_join (m : Z) (lines chunks buf : list str) (count : Z) :
  join (chunk_loop m lines chunks buf count)
  = join chunks ++ join buf ++ join lines.
Proof.
  revert chunks buf count.
  induction lines as [|line rest IH]; intros chunks buf count; simpl.
  - destruct buf.
    + simpl. now rewrite !app_nil_r.
    + rewrite join_app, join_single. now rewrite app_nil_r.
  - destruct ((count + len line >? m) && truthy buf).
    + rewrite IH, join_app, join_single, <- app_assoc.
      unfold join. simpl. now rewrite app_nil_r.
    + rewrite IH, join_app, join_single, <- !app_assoc.
      unfold join. now simpl.
Qed.

Lemma chunk_text_join (text : str) (m : Z) : join (chunk_text text m) = text.
Proof.
  unfold chunk_text. destruct (len text <=? m).
  - apply join_single.
  - rewrite chunk_loop_join. simpl. apply splitlines_join.
Qed.

(** C1.  For every text and every [max_chars >= 1], the chunks of
    [chunk_text text max_chars], joined in order, are [text]: nothing is
    added, dropped or moved. *)
Theorem chunk_text_round_trip (text : str) (max_chars : Z) :
  1 <= max_chars -> join (chunk_text text max_chars) = text.
Proof. intros _. apply chunk_text_join. Qed.

Lemma chunk_text_round_trip_witness :
  1 <= 4 /\ join (chunk_text (lit "ab
cd
ef") 4) = lit "ab
cd
ef".
Proof. split; [lia | apply chunk_text_round_trip; lia]. Defined.

(** The invariant of the loop for the size bound: every sealed chunk
    and the buffer are within [m], or are one line of the text. *)
Lemma chunk_loop_bound (m : Z) (L lines chunks buf : list str) (count : Z) :
  (forall l, In l lines -> In l L) ->
  (forall c, In c chunks -> len c <= m \/ (In c L /\ m < len c)) ->
  count = len (join buf) ->
  (buf = [] \/ len (join buf) <= m \/ exists l, buf = [l] /\ In l L) ->
  forall c, In c (chunk_loop m lines chunks buf count) ->
            len c <= m \/ (In c L /\ m < len c).
Proof.
  revert chunks buf count.
  assert (Hseal : forall buf,
             buf <> [] ->
             (buf = [] \/ len (join buf) <= m \/ exists l, buf = [l] /\ In l L) ->
             len (join buf) <= m \/ (In (join buf) L /\ m < len (join buf))).
  { intros buf Hne [E|[Hle|(l & -> & Hl)]]; [contradiction|now left|].
    rewrite join_single. destruct (Z.le_gt_cases (len l) m); [now left|right].
    split; [assumption|lia]. }
  induction lines as [|line rest IH]; intros chunks buf count HL Hch Hcount Hbuf c; simpl.
  - destruct buf as [|b bs]; [apply Hch|].
    intros Hin. apply in_app_or in Hin. destruct Hin as [Hin|[<-|[]]].
    + now apply Hch.
    + now apply Hseal.
  - destruct (count + len line >? m) eqn:Hgt; cbn [andb].
    + destruct buf as [|b bs]; cbn [truthy app].
      * apply IH; auto.
        -- intros l Hl. apply HL. now right.
        -- rewrite join_single, Hcount. reflexivity.
        -- right; right. exists line. split; [reflexivity|]. apply HL. now left.
      * apply IH.
        -- intros l Hl. apply HL. now right.
        -- intros c' Hin. apply in_app_or in Hin. destruct Hin as [Hin|[<-|[]]].
           ++ now apply Hch.
           ++ now apply Hseal.
        -- rewrite join_single. lia.
        -- right; right. exists line. split; [reflexivity|]. apply HL. now left.
    + apply IH; auto.
      * intros l Hl. apply HL. now right.
      * rewrite join_app, join_single, len_app. lia.
      * right; left. rewrite join_app, join_single, len_app.
        rewrite Z.gtb_ltb in Hgt. apply Z.ltb_ge in Hgt. lia.
Qed.

(** C2.  For every text and every [max_chars >= 1], a chunk of
    [chunk_text text max_chars] has at most [max_chars] characters,
    unless it is a single line of the text that is itself longer than
    [max_chars]: such a line is never split and is a chunk of its own. *)
Theorem chunk_text_size_bound (text : str) (max_chars : Z) (chunk : str) :
  1 <= max_chars ->
  In chunk (chunk_text text max_chars) ->
  len chunk <= max_chars
  \/ (In chunk (splitlines text) /\ splitlines chunk = [chunk]
      /\ max_chars < len chunk).
Proof.
  intros _ Hin.
  assert (H : len chunk <= max_chars
              \/ (In chunk (splitlines text) /\ max_chars < len chunk)).
  { unfold chunk_text in Hin. destruct (len text <=? max_chars) eqn:Hle.
    - destruct Hin as [<-|[]]. left. now apply Z.leb_le.
    - revert chunk Hin. apply chunk_loop_bound; auto.
      intros c []. }
  destruct H as [H|[H1 H2]]; [now left|right].
  repeat split; try assumption. now apply (splitlines_line text).
Qed.

Lemma chunk_text_size_bound_witness :
  In (lit "abcdef
") (chunk_text (lit "ab
abcdef
cd") 4)
  /\ (len (lit "abcdef
") <= 4
      \/ (In (lit "abcdef
") (splitlines (lit "ab
abcdef
cd"))
          /\ splitlines (lit "abcdef
") = [lit "abcdef
"]
          /\ 4 < len (lit "abcdef
"))).
Proof.
  assert (Hin : In (lit "abcdef
") (chunk_text (lit "ab
abcdef
cd") 4)) by (vm_compute; tauto).
  split; [exact Hin|].
  apply (chunk_text_size_bound _ 4); [lia | exact Hin].
Defined.

Lemma chunk_loop_length_ge (m : Z) (lines chunks buf : list str) (count : Z) :
  (length chunks + (if truthy buf then 1 else 0)
   <= length (chunk_loop m lines chunks buf count))%nat.
Proof.
  revert chunks buf count.
  induction lines as [|line rest IH]; intros chunks buf count; simpl.
  - destruct buf; simpl; [lia|]. rewrite length_app. simpl. lia.
  - destruct ((count + len line >? m) && truthy buf) eqn:E.
    + specialize (IH (chunks ++ [join buf]) [line] (0 + len line)).
      rewrite length_app in IH. simpl in IH. destruct (truthy buf); lia.
    + specialize (IH chunks (buf ++ [line]) (count + len line)).
      assert (truthy (buf ++ [line]) = true) by (destruct buf; reflexivity).
      rewrite H in IH. destruct (truthy buf); lia.
Qed.

(** When the loop seals nothing, all the lines went into the buffer it
    started with. *)
Lemma chunk_loop_no_seal (m : Z) (lines chunks buf : list str) (count : Z) :
  buf <> [] ->
  length (chunk_loop m lines chunks buf count) = S (length chunks) ->
  lines = [] \/ count + len (join lines) <= m.
Proof.
  revert chunks buf count.
  induction lines as [|line rest IH]; intros chunks buf count Hne Hlen; [now left|].
  right. simpl in Hlen. destruct buf as [|b bs]; [contradiction|].
  destruct (count + len line >? m) eqn:Hgt; simpl in Hlen.
  - pose proof (chunk_loop_length_ge m rest (chunks ++ [join (b :: bs)])
                  [line] (0 + len line)) as Hge.
    rewrite length_app in Hge. simpl in Hge. lia.
  - rewrite Z.gtb_ltb in Hgt. apply Z.ltb_ge in Hgt.
    apply IH in Hlen; [|discriminate].
    rewrite join_cons, len_app.
    destruct Hlen as [->|Hle]; [cbn; lia|lia].
Qed.

Lemma chunk_text_one_chunk (text : str) (m : Z) :
  length (chunk_text text m) = 1%nat <->
  len text <= m \/ length (splitlines text) = 1%nat.
Proof.
  unfold chunk_text. destruct (len text <=? m) eqn:Hle.
  - apply Z.leb_le in Hle. split; [now left|reflexivity].
  - apply Z.leb_gt in Hle. split.
    + intros Hlen. right.
      pose proof (splitlines_join text) as Hjoin.
      destruct (splitlines text) as [|l1 rest]; [discriminate|].
      simpl in Hlen. rewrite andb_false_r in Hlen.
      apply chunk_loop_no_seal in Hlen; [|discriminate].
      destruct Hlen as [->|Hfit]; [reflexivity|].
      rewrite <- Hjoin, join_cons, len_app in Hle. lia.
    + intros [Hfit|Hone]; [lia|].
      destruct (splitlines text) as [|l1 [|l2 rest]]; try discriminate.
      simpl. rewrite andb_false_r. reflexivity.
Qed.

(** C3, as the code has it.  For every text and every [max_chars >= 1],
    [chunk_text] returns exactly one chunk if and only if the text has at
    most [max_chars] characters or is a single line; a single chunk is
    always the whole text, and the empty text gives one empty chunk. *)
Theorem chunk_text_single_chunk (text : str) (max_chars : Z) :
  1 <= max_chars ->
  (length (chunk_text text max_chars) = 1%nat <->
   len text <= max_chars \/ length (splitlines text) = 1%nat)
  /\ (length (chunk_text text max_chars) = 1%nat ->
      chunk_text text max_chars = [text])
  /\ (len text <= max_chars -> chunk_text text max_chars = [text])
  /\ chunk_text [] max_chars = [[]].
Proof.
  intros Hm. split; [apply chunk_text_one_chunk|]. split; [|split].
  - intros Hlen. pose proof (chunk_text_join text max_chars) as Hjoin.
    destruct (chunk_text text max_chars) as [|c [|c' cs]]; try discriminate.
    rewrite join_single in Hjoin. now subst c.
  - intros Hle. unfold chunk_text. apply Z.leb_le in Hle. now rewrite Hle.
  - unfold chunk_text. cbn. destruct max_chars; try lia; reflexivity.
Qed.

Lemma chunk_text_single_chunk_witness :
  1 <= 3 /\ chunk_text (lit "abcd") 3 = [lit "abcd"].
Proof.
  split; [lia|].
  destruct (chunk_text_single_chunk (lit "abcd") 3) as (Hiff & Hwhole & _ & _);
    [lia|].
  apply Hwhole, Hiff. right. reflexivity.
Defined.

(** C3, as the specification words it, fails: a text of one line that is
    longer than [max_chars] is a single chunk. *)
Lemma chunk_text_single_chunk_counterexample :
  ~ (forall (text : str) (max_chars : Z),
        1 <= max_chars ->
        (length (chunk_text text max_chars) = 1%nat <-> len text <= max_chars)).
Proof.
  intros H. specialize (H (lit "abcd") 3 ltac:(lia)).
  destruct H as [H _]. specialize (H eq_refl). vm_compute in H. now apply H.
Qed.

(** ** The chunk translator *)

Lemma translate_chunk_run (parent chunk target : str) (source : option str)
    (svc : service) (sent : list request) :
  translate_chunk parent chunk target source text_plain None svc sent
  = (match svc (length sent) (chunk_request parent target source chunk) with
     | Ok translations => Ok (join translations)
     | Raise e => Raise e
     end,
     sent ++ [chunk_request parent target source chunk]).
Proof.
  unfold translate_chunk, bind, translate_text, ret, chunk_request.
  destruct (svc _ _); reflexivity.
Qed.

Lemma translate_pieces_cons (parent target : str) (source : option str)
    (chunk : str) (rest pieces : list str) (svc : service) (sent : list request) :
  translate_pieces parent target source (chunk :: rest) pieces svc sent
  = match svc (length sent) (chunk_request parent target source chunk) with
    | Ok translations =>
        translate_pieces parent target source rest (pieces ++ [join translations])
          svc (sent ++ [chunk_request parent target source chunk])
    | Raise e => (Raise e, sent ++ [chunk_request parent target source chunk])
    end.
Proof.
  cbn [translate_pieces]. unfold bind at 1. rewrite translate_chunk_run.
  destruct (svc _ _); reflexivity.
Qed.

Section ChunkTranslator.

Variables (parent target : str) (source : option str) (svc : service).

Local Abbreviation req := (chunk_request parent target source).

(** Every call answered: the pieces come back in the order of the
    chunks, one request each. *)
Lemma translate_pieces_all_answered (chunks : list str)
    (answers : list (list str)) (pieces : list str) (sent : list request) :
  length answers = length chunks ->
  (forall k chunk, nth_error chunks k = Some chunk ->
                   svc (length sent + k)%nat (req chunk) = Ok (nth k answers [])) ->
  translate_pieces parent target source chunks pieces svc sent
  = (Ok (pieces ++ map join answers), sent ++ map req chunks).
Proof.
  revert answers pieces sent.
  induction chunks as [|chunk rest IH]; intros answers pieces sent Hlen Hans.
  - destruct answers; [|discriminate]. cbn. now rewrite !app_nil_r.
  - destruct answers as [|a answers]; [discriminate|].
    rewrite translate_pieces_cons.
    pose proof (Hans O chunk eq_refl) as H0. rewrite Nat.add_0_r in H0.
    rewrite H0. cbn [nth].
    rewrite (IH answers).
    + cbn [map]. now rewrite <- !app_assoc.
    + now injection Hlen.
    + intros k c Hk. rewrite length_app. cbn [length].
      replace (length sent + 1 + k)%nat with (length sent + S k)%nat by lia.
      apply (Hans (S k) c Hk).
Qed.

(** The first call that raises ends the loop: its request is the last
    one sent. *)
Lemma translate_pieces_first_failure (before : list str) (failing : str)
    (after : list str) (answers : list (list str)) (e : exn)
    (pieces : list str) (sent : list request) :
  length answers = length before ->
  (forall k chunk, nth_error before k = Some chunk ->
                   svc (length sent + k)%nat (req chunk) = Ok (nth k answers [])) ->
  svc (length sent + length before)%nat (req failing) = Raise e ->
  translate_pieces parent target source (before ++ failing :: after) pieces svc sent
  = (Raise e, sent ++ map req (before ++ [failing])).
Proof.
  revert answers pieces sent.
  induction before as [|chunk rest IH]; intros answers pieces sent Hlen Hans Hfail.
  - cbn [app length] in *. rewrite translate_pieces_cons.
    rewrite Nat.add_0_r in Hfail. now rewrite Hfail.
  - destruct answers as [|a answers]; [discriminate|].
    cbn [app]. rewrite translate_pieces_cons.
    pose proof (Hans O chunk eq_refl) as H0. rewrite Nat.add_0_r in H0.
    rewrite H0.
    rewrite (IH answers).
    + cbn [map app]. now rewrite <- !app_assoc.
    + now injection Hlen.
    + intros k c Hk. rewrite length_app. cbn [length].
      replace (length sent + 1 + k)%nat with (length sent + S k)%nat by lia.
      apply (Hans (S k) c Hk).
    + rewrite length_app. cbn [length] in *.
      replace (length sent + 1 + length rest)%nat
        with (length sent + S (length rest))%nat by lia.
      exact Hfail.
Qed.

End ChunkTranslator.

(** C9.  [translate_full_text] sends one request per chunk of the
    document, in the order of the chunks.  When every call is answered it
    returns the answers joined in that order.  When a call raises, the
    job raises that exception at once: no text is returned and no request
    is sent for the chunks behind the failing one. *)
Theorem translate_full_text_fail_fast
    (parent text target : str) (source : option str) (svc : service) :
  let chunks := chunk_text text default_max_chars in
  let req := chunk_request parent target source in
  (forall answers : list (list str),
      length answers = length chunks ->
      (forall k chunk, nth_error chunks k = Some chunk ->
                       svc k (req chunk) = Ok (nth k answers [])) ->
      translate_full_text parent text target source svc []
      = (Ok (join (map join answers)), map req chunks))
  /\
  (forall (before : list str) (failing : str) (after : list str)
          (answers : list (list str)) (e : exn),
      chunks = before ++ failing :: after ->
      length answers = length before ->
      (forall k chunk, nth_error before k = Some chunk ->
                       svc k (req chunk) = Ok (nth k answers [])) ->
      svc (length before) (req failing) = Raise e ->
      translate_full_text parent text target source svc []
      = (Raise e, map req (before ++ [failing]))).
Proof.
  intros chunks req. split.
  - intros answers Hlen Hans. unfold translate_full_text, bind.
    fold chunks.
    rewrite (translate_pieces_all_answered parent target source svc chunks answers);
      auto.
  - intros before failing after answers e Hsplit Hlen Hans Hfail.
    unfold translate_full_text, bind. fold chunks. rewrite Hsplit.
    rewrite (translate_pieces_first_failure parent target source svc
               before failing after answers e); auto.
Qed.

Lemma translate_full_text_fail_fast_witness :
  let parent := lit "projects/p/locations/global" in
  let first := concat (repeat (lit "abcdefghi
") 450) in
  let second := concat (repeat (lit "abcdefghi
") 50) in
  let req := chunk_request parent (lit "fr") (Some (lit "en")) in
  chunk_text long_text default_max_chars = [first; second]
  /\ translate_full_text parent long_text (lit "fr") (Some (lit "en"))
       second_call_fails []
     = (Raise (Raised (lit "503 unavailable")), [req first; req second]).
Proof.
  intros parent first second req.
  assert (Hchunks : chunk_text long_text default_max_chars = [first] ++ second :: [])
    by (vm_compute; reflexivity).
  split; [exact Hchunks|].
  apply (proj2 (translate_full_text_fail_fast parent long_text (lit "fr")
                  (Some (lit "en")) second_call_fails)
           [first] second [] [[first]] (Raised (lit "503 unavailable")) Hchunks).
  - reflexivity.
  - intros [|[|k]] chunk Hk; cbn [nth_error] in Hk.
    + injection Hk as <-. reflexivity.
    + discriminate Hk.
    + discriminate Hk.
  - reflexivity.
Defined.

(** ** The worklist *)

Lemma str_eqb_eq (a b : str) : str_eqb a b = true <-> a = b.
Proof.
  unfold str_eqb. destruct (str_eq_dec a b); split; congruence.
Qed.

Lemma str_eqb_refl (a : str) : str_eqb a a = true.
Proof. now apply str_eqb_eq. Qed.

Lemma str_eqb_neq (a b : str) : str_eqb a b = false <-> a <> b.
Proof.
  unfold str_eqb. destruct (str_eq_dec a b); split; congruence.
Qed.

Lemma contains_In (exclude : list str) (code : str) :
  contains exclude code = true <-> In code exclude.
Proof.
  unfold contains. rewrite existsb_exists. split.
  - intros (x & Hx & E). apply str_eqb_eq in E. now subst.
  - intros H. exists code. split; [assumption | apply str_eqb_refl].
Qed.

Lemma contains_same_elements (ex1 ex2 : list str) (code : str) :
  (forall c, In c ex1 <-> In c ex2) -> contains ex1 code = contains ex2 code.
Proof.
  intros H. destruct (contains ex1 code) eqn:E1, (contains ex2 code) eqn:E2;
    try reflexivity.
  - apply contains_In, H, contains_In in E1. congruence.
  - apply contains_In, H, contains_In in E2. congruence.
Qed.

Lemma build_worklist_codes (names : dict str) (source_lang : str)
    (exclude codes : list str) (acc : list (str * str)) :
  map fst (build_worklist names source_lang exclude codes acc)
  = map fst acc ++ filter (scheduled source_lang exclude) codes.
Proof.
  revert acc. induction codes as [|code rest IH]; intros acc; cbn [build_worklist filter].
  - now rewrite app_nil_r.
  - unfold scheduled at 1.
    destruct (str_eqb code source_lang); cbn [negb andb]; [apply IH|].
    destruct (contains exclude code); cbn [negb]; [apply IH|].
    rewrite IH, map_app, <- app_assoc. reflexivity.
Qed.

Lemma worklist_codes (supported : list SupportedLanguage) (source_lang : str)
    (exclude : list str) :
  map fst (worklist supported source_lang exclude)
  = filter (scheduled source_lang exclude) (map language_code supported).
Proof. unfold worklist. now rewrite build_worklist_codes. Qed.

(** A listing with unique codes gives a worklist with unique codes. *)
Lemma worklist_codes_unique (supported : list SupportedLanguage)
    (source_lang : str) (exclude : list str) :
  NoDup (map language_code supported) ->
  NoDup (map fst (worklist supported source_lang exclude)).
Proof. intros H. rewrite worklist_codes. now apply NoDup_filter. Qed.

Lemma build_worklist_same_elements (names : dict str) (source_lang : str)
    (ex1 ex2 codes : list str) (acc : list (str * str)) :
  (forall c, In c ex1 <-> In c ex2) ->
  build_worklist names source_lang ex1 codes acc
  = build_worklist names source_lang ex2 codes acc.
Proof.
  intros H. revert acc. induction codes as [|code rest IH]; intros acc;
    cbn [build_worklist]; [reflexivity|].
  rewrite (contains_same_elements ex1 ex2 code H).
  destruct (str_eqb code source_lang); [apply IH|].
  destruct (contains ex2 code); apply IH.
Qed.

(** C7.  Whatever the listing, the detected source and the exclusion
    list, the worklist holds neither the source code nor a code of the
    exclusion list, codes being compared as exact strings; and only the
    set of excluded codes counts, so a code listed twice changes
    nothing. *)
Theorem worklist_exclusion (supported : list SupportedLanguage)
    (source_lang : str) (exclude : list str) :
  (forall code name,
      In (code, name) (worklist supported source_lang exclude) ->
      code <> source_lang /\ ~ In code exclude)
  /\ (forall exclude' : list str,
         (forall c, In c exclude' <-> In c exclude) ->
         worklist supported source_lang exclude'
         = worklist supported source_lang exclude).
Proof.
  split.
  - intros code name Hin.
    assert (Hc : In code (map fst (worklist supported source_lang exclude)))
      by (apply in_map_iff; now exists (code, name)).
    rewrite worklist_codes in Hc. apply filter_In in Hc. destruct Hc as [_ Hc].
    unfold scheduled in Hc. apply andb_prop in Hc. destruct Hc as [H1 H2].
    apply negb_true_iff in H1, H2. split.
    + now apply str_eqb_neq.
    + intros Hex. apply contains_In in Hex. congruence.
  - intros exclude' H. unfold worklist. now apply build_worklist_same_elements.
Qed.

Lemma worklist_exclusion_witness :
  worklist three_languages (lit "en") [lit "de"; lit "FR"; lit "de"]
  = worklist three_languages (lit "en") [lit "FR"; lit "de"]
  /\ worklist three_languages (lit "en") [lit "FR"; lit "de"]
     = [(lit "fr", lit "French")]
  /\ lit "fr" <> lit "en" /\ ~ In (lit "fr") [lit "FR"; lit "de"].
Proof.
  destruct (worklist_exclusion three_languages (lit "en") [lit "FR"; lit "de"])
    as [Hout Hset].
  split; [|split].
  - apply Hset. intros c. cbn [In]. tauto.
  - reflexivity.
  - apply (Hout (lit "fr") (lit "French")). cbn. now left.
Defined.

(** ** Dictionaries and paths *)

Lemma dict_get_set_same {V} (d : dict V) (k : str) (v : V) :
  dict_get (dict_set d k v) k = Some v.
Proof.
  induction d as [|[k' v'] d IH]; cbn.
  - now rewrite str_eqb_refl.
  - destruct (str_eqb k' k) eqn:E; cbn; rewrite E; [reflexivity|exact IH].
Qed.

Lemma dict_get_set_other {V} (d : dict V) (k k0 : str) (v : V) :
  k <> k0 -> dict_get (dict_set d k v) k0 = dict_get d k0.
Proof.
  intros Hne. induction d as [|[k' v'] d IH]; cbn.
  - apply str_eqb_neq in Hne. now rewrite Hne.
  - destruct (str_eqb k' k) eqn:E; cbn.
    + apply str_eqb_eq in E. subst k'.
      apply str_eqb_neq in Hne. now rewrite Hne.
    + destruct (str_eqb k' k0); [reflexivity|exact IH].
Qed.

Lemma dict_get_keys {V} (d : dict V) (k : str) :
  In k (dict_keys d) <-> dict_get d k <> None.
Proof.
  induction d as [|[k' v'] d IH]; cbn.
  - split; [contradiction|congruence].
  - destruct (str_eqb k' k) eqn:E.
    + apply str_eqb_eq in E. split; [discriminate|now left].
    + apply str_eqb_neq in E. rewrite <- IH. split.
      * intros [H|H]; [contradiction|assumption].
      * now right.
Qed.

Lemma out_file_inj (input_path outdir c1 c2 : str) :
  out_file input_path outdir c1 = out_file input_path outdir c2 -> c1 = c2.
Proof.
  unfold out_file, path_join. intros H.
  apply app_inv_head in H. apply app_inv_head in H.
  apply app_inv_head in H. apply app_inv_head in H.
  now apply app_inv_tail in H.
Qed.

(** ** The pool *)

Lemma take_out_perm {A} (k : nat) (l : list A) (x : A) (others : list A) :
  take_out k l = Some (x, others) -> Permutation (x :: others) l.
Proof.
  revert k x others. induction l as [|y l IH]; intros k x others H; [discriminate|].
  destruct k as [|k]; cbn in H.
  - injection H as <- <-. apply Permutation_refl.
  - destruct (take_out k l) as [[z r]|] eqn:E; [|discriminate].
    injection H as <- <-. apply IH in E.
    apply perm_trans with (y :: z :: r); [apply perm_swap|].
    now apply perm_skip.
Qed.

Lemma take_out_some {A} (k : nat) (l : list A) :
  (k < length l)%nat -> exists x others, take_out k l = Some (x, others).
Proof.
  revert k. induction l as [|y l IH]; intros k Hk; cbn in Hk; [lia|].
  destruct k as [|k]; cbn.
  - now exists y, l.
  - destruct (IH k) as (x & others & E); [lia|]. rewrite E. now exists x, (y :: others).
Qed.

(** [as_completed] hands out every pending future exactly once. *)
Lemma as_completed_perm (picks : list nat) (pending : list future) :
  Permutation (as_completed picks pending) pending.
Proof.
  revert pending. induction picks as [|k picks IH]; intros pending; cbn.
  - apply Permutation_refl.
  - destruct pending as [|f0 pending0] eqn:Ep; [cbn; apply perm_nil|].
    rewrite <- Ep.
    destruct (take_out_some (k mod length pending) pending) as (x & others & E).
    { apply Nat.mod_upper_bound. subst pending. discriminate. }
    rewrite E. apply perm_trans with (x :: others).
    + apply perm_skip, IH.
    + now apply take_out_perm with (k := (k mod length pending)%nat).
Qed.

Lemma submit_all_codes (task : nat -> str -> result str) (i : nat)
    (to_translate : list (str * str)) :
  map fut_code (submit_all task i to_translate) = map fst to_translate.
Proof.
  revert i. induction to_translate as [|[code name] rest IH]; intros i; cbn;
    [reflexivity|]. now rewrite IH.
Qed.

Lemma submit_all_length (task : nat -> str -> result str) (i : nat)
    (to_translate : list (str * str)) :
  length (submit_all task i to_translate) = length to_translate.
Proof.
  rewrite <- (length_map fut_code), submit_all_codes. apply length_map.
Qed.

Lemma submit_all_nth (task : nat -> str -> result str) (i j : nat)
    (to_translate : list (str * str)) (code name : str) :
  nth_error to_translate j = Some (code, name) ->
  In {| fut_code := code; fut_name := name; fut_result := task (i + j)%nat code |}
     (submit_all task i to_translate).
Proof.
  revert i j. induction to_translate as [|[c n] rest IH]; intros i j H.
  - destruct j; discriminate.
  - destruct j as [|j]; cbn in H |- *.
    + injection H as -> ->. left. now rewrite Nat.add_0_r.
    + right. replace (i + S j)%nat with (S i + j)%nat by lia. now apply IH.
Qed.

Lemma submit_all_in (task : nat -> str -> result str) (i : nat)
    (to_translate : list (str * str)) (f : future) :
  In f (submit_all task i to_translate) ->
  exists j, nth_error to_translate j = Some (fut_code f, fut_name f)
            /\ fut_result f = task (i + j)%nat (fut_code f).
Proof.
  revert i. induction to_translate as [|[c n] rest IH]; intros i H; [contradiction|].
  cbn in H. destruct H as [<-|H].
  - exists O. cbn. now rewrite Nat.add_0_r.
  - apply IH in H. destruct H as (j & H1 & H2). exists (S j).
    replace (i + S j)%nat with (S i + j)%nat by lia. now split.
Qed.

(** ** One turn of the completion loop *)

Lemma dict_keys_set {V} (d : dict V) (k c : str) (v : V) :
  In c (dict_keys (dict_set d k v)) <-> c = k \/ In c (dict_keys d).
Proof.
  rewrite !dict_get_keys. destruct (str_eq_dec k c) as [->|Hne].
  - rewrite dict_get_set_same. split; [now left|discriminate].
  - rewrite dict_get_set_other by assumption. split; [now right|].
    intros [->|H]; [contradiction|assumption].
Qed.

Section CompletionLoop.

Variables (env : environment) (input_path outdir : str)
          (include_language_names : bool) (total : nat).

Local Abbreviation body :=
  (loop_body env input_path outdir include_language_names total).
Local Abbreviation path := (out_file input_path outdir).

Lemma body_completed (st : loop_state) (f : future) :
  completed (body st f) = S (completed st).
Proof.
  unfold body, loop_body, write_text, on_exception.
  destruct (fut_result f); [|reflexivity].
  destruct (write_error env _) as [[e|e residue]|]; reflexivity.
Qed.

Lemma body_stdout (st : loop_state) (f : future) :
  exists ok rest,
    stdout (now (body st f))
    = stdout (now st) ++ [Progress (S (completed st)) total ok (fut_code f) rest].
Proof.
  unfold body, loop_body, write_text, on_exception.
  destruct (fut_result f) as [translated|e].
  - destruct (write_error env _) as [[e|e residue]|].
    + now exists false, (str_of_exn e).
    + now exists false, (str_of_exn e).
    + now exists true, (label_rest include_language_names (fut_name f)).
  - now exists false, (str_of_exn e).
Qed.

Lemma body_keys (st : loop_state) (f : future) (c : str) :
  In c (dict_keys (results (body st f)) ++ dict_keys (errors (body st f)))
  <-> c = fut_code f
      \/ In c (dict_keys (results st) ++ dict_keys (errors st)).
Proof.
  rewrite !in_app_iff.
  unfold body, loop_body, write_text, on_exception.
  destruct (fut_result f) as [translated|e];
    [destruct (write_error env _) as [[e|e residue]|]|];
    cbn [results errors]; rewrite ?dict_keys_set; tauto.
Qed.

Lemma body_files_other (st : loop_state) (f : future) (p : str) :
  p <> path (fut_code f) ->
  dict_get (files (now (body st f))) p = dict_get (files (now st)) p.
Proof.
  intros Hp. unfold body, loop_body, write_text, on_exception.
  destruct (fut_result f) as [translated|e]; [|reflexivity].
  destruct (write_error env _) as [[e|e residue]|]; [reflexivity| |];
    cbn; apply dict_get_set_other; intros E; apply Hp; symmetry; exact E.
Qed.

(** A turn for another language leaves a language's three as they
    are. *)
Lemma body_other (st : loop_state) (f : future) (c : str) :
  fut_code f <> c ->
  kept input_path outdir (body st f) c = kept input_path outdir st c.
Proof.
  intros Hc. unfold kept. rewrite body_files_other.
  2:{ intros E. apply out_file_inj in E. congruence. }
  unfold body, loop_body, write_text, on_exception.
  destruct (fut_result f) as [translated|e];
    [destruct (write_error env _) as [[e|e residue]|]|];
    cbn [results errors]; rewrite ?dict_get_set_other by assumption;
    reflexivity.
Qed.

(** The turn of a language's own future. *)
Lemma body_same (st : loop_state) (f : future) :
  kept input_path outdir (body st f) (fut_code f)
  = turn env input_path outdir f (kept input_path outdir st (fut_code f)).
Proof.
  unfold kept, turn, body, loop_body, write_text, on_exception.
  destruct (fut_result f) as [translated|e].
  - destruct (write_error env _) as [[e|e residue]|]; cbn;
      rewrite !dict_get_set_same; reflexivity.
  - cbn. rewrite dict_get_set_same. reflexivity.
Qed.

(** ** The whole loop *)

Lemma loop_completed (order : list future) (st : loop_state) :
  completed (fold_left body order st) = (completed st + length order)%nat.
Proof.
  revert st. induction order as [|f order IH]; intros st; cbn [fold_left length].
  - lia.
  - rewrite IH, body_completed. lia.
Qed.

Lemma loop_stdout (order : list future) (st : loop_state) :
  exists lines,
    stdout (now (fold_left body order st)) = stdout (now st) ++ lines
    /\ map line_completed lines
       = map Some (seq (S (completed st)) (length order))
    /\ map line_total lines = repeat (Some total) (length order)
    /\ map line_code lines = map Some (map fut_code order).
Proof.
  revert st. induction order as [|f order IH]; intros st; cbn [fold_left length].
  - exists []. cbn. now rewrite app_nil_r.
  - destruct (IH (body st f)) as (lines & H1 & H2 & H3 & H4).
    destruct (body_stdout st f) as (ok & rest & Hb).
    exists (Progress (S (completed st)) total ok (fut_code f) rest :: lines).
    rewrite H1, Hb, <- app_assoc. cbn [app map seq repeat line_completed line_total line_code].
    rewrite H2, H3, H4, body_completed. repeat split; reflexivity.
Qed.

Lemma loop_keys (order : list future) (st : loop_state) (c : str) :
  In c (dict_keys (results (fold_left body order st))
        ++ dict_keys (errors (fold_left body order st)))
  <-> In c (map fut_code order)
      \/ In c (dict_keys (results st) ++ dict_keys (errors st)).
Proof.
  revert st. induction order as [|f order IH]; intros st; cbn [fold_left map In].
  - tauto.
  - rewrite IH, body_keys. intuition congruence.
Qed.

Lemma loop_files_other (order : list future) (st : loop_state) (p : str) :
  ~ In p (map path (map fut_code order)) ->
  dict_get (files (now (fold_left body order st))) p
  = dict_get (files (now st)) p.
Proof.
  revert st. induction order as [|f order IH]; intros st Hp; cbn [fold_left];
    [reflexivity|].
  cbn [map In] in Hp. rewrite IH by tauto.
  apply body_files_other. intros E. apply Hp. now left.
Qed.

Lemma loop_other (order : list future) (st : loop_state) (c : str) :
  ~ In c (map fut_code order) ->
  kept input_path outdir (fold_left body order st) c = kept input_path outdir st c.
Proof.
  revert st. induction order as [|f order IH]; intros st Hc; cbn [fold_left];
    [reflexivity|].
  cbn [map In] in Hc. rewrite IH by tauto. apply body_other. tauto.
Qed.

(** With one future per language, what the loop holds for a language
    at its end is what the turn of its own future made. *)
Lemma loop_same (order : list future) (st : loop_state) (f : future) :
  NoDup (map fut_code order) ->
  In f order ->
  kept input_path outdir (fold_left body order st) (fut_code f)
  = turn env input_path outdir f (kept input_path outdir st (fut_code f)).
Proof.
  revert st. induction order as [|g order IH]; intros st Hnd Hin; [contradiction|].
  cbn [fold_left]. cbn [map] in Hnd. inversion Hnd as [|? ? Hg Hnd']; subst.
  destruct Hin as [->|Hin].
  - rewrite loop_other by assumption. apply body_same.
  - rewrite IH by assumption. f_equal. apply body_other.
    intros E. apply Hg. rewrite E. now apply in_map.
Qed.

End CompletionLoop.

(** ** The block around the loop *)

Section Block.

Variables (env : environment) (parent text source_lang input_path outdir : str)
          (include_language_names : bool) (max_workers : Z)
          (to_translate : list (str * str)) (w : world).

Local Abbreviation final :=
  (completion_loop env parent text source_lang input_path outdir
     include_language_names max_workers to_translate w).

Local Abbreviation future_map :=
  (submit_all (_task env parent text source_lang) 0 to_translate).

Local Abbreviation order := (as_completed (completion env max_workers) future_map).

Lemma translate_concurrently_ok :
  1 <= max_workers ->
  translate_concurrently env parent text source_lang input_path outdir
    include_language_names max_workers to_translate w = Ok final.
Proof.
  intros H. unfold translate_concurrently.
  destruct (max_workers <=? 0) eqn:E; [apply Z.leb_le in E; lia|reflexivity].
Qed.

Lemma translate_concurrently_refused :
  max_workers <= 0 ->
  translate_concurrently env parent text source_lang input_path outdir
    include_language_names max_workers to_translate w
  = Raise ValueError_max_workers.
Proof.
  intros H. unfold translate_concurrently.
  apply Z.leb_le in H. now rewrite H.
Qed.

Lemma order_perm : Permutation order future_map.
Proof. apply as_completed_perm. Qed.

Lemma order_codes : Permutation (map fut_code order) (map fst to_translate).
Proof.
  rewrite <- (submit_all_codes (_task env parent text source_lang) 0).
  apply Permutation_map, order_perm.
Qed.

Lemma order_length : length order = length to_translate.
Proof.
  rewrite (Permutation_length order_perm). apply submit_all_length.
Qed.

(** Every scheduled code ends as a key of [results] or of [errors],
    and no other code does. *)
Lemma completion_loop_keys (c : str) :
  In c (dict_keys (results final) ++ dict_keys (errors final))
  <-> In c (map fst to_translate).
Proof.
  unfold completion_loop. rewrite loop_keys. cbn [results errors dict_keys map app].
  split.
  - intros [H|[]]. now apply (Permutation_in _ order_codes).
  - intros H. left. apply (Permutation_in _ (Permutation_sym order_codes) H).
Qed.

Lemma completion_loop_completed : completed final = length to_translate.
Proof.
  unfold completion_loop. rewrite loop_completed. cbn [completed].
  apply order_length.
Qed.

Lemma completion_loop_stdout :
  exists lines,
    stdout (now final) = stdout w ++ Starting :: lines
    /\ map line_completed lines = map Some (seq 1 (length to_translate))
    /\ map line_total lines
       = repeat (Some (length to_translate)) (length to_translate)
    /\ Permutation (map line_code lines) (map Some (map fst to_translate)).
Proof.
  unfold completion_loop.
  destruct (loop_stdout env input_path outdir include_language_names
              (length future_map) order
              {| results := []; errors := []; completed := 0;
                 now := print Starting w |})
    as (lines & H1 & H2 & H3 & H4).
  exists lines. rewrite H1. cbn [now print stdout completed] in *.
  rewrite order_length in H2, H3.
  rewrite submit_all_length in H3.
  repeat split; [now rewrite <- app_assoc| assumption | assumption |].
  rewrite H4. apply Permutation_map, order_codes.
Qed.

Lemma completion_loop_files_other (p : str) :
  ~ In p (map (out_file input_path outdir) (map fst to_translate)) ->
  dict_get (files (now final)) p = dict_get (files w) p.
Proof.
  intros Hp. unfold completion_loop.
  rewrite loop_files_other; [reflexivity|].
  intros Hin. apply Hp.
  apply (Permutation_in _ (Permutation_map _ order_codes) Hin).
Qed.

Lemma completion_loop_unscheduled (c : str) :
  ~ In c (map fst to_translate) ->
  kept input_path outdir final c
  = (None, None, dict_get (files w) (out_file input_path outdir c)).
Proof.
  intros Hc. unfold completion_loop.
  rewrite loop_other; [reflexivity|].
  intros Hin. apply Hc. apply (Permutation_in _ order_codes Hin).
Qed.

(** With one entry per code in the worklist, what the loop holds for
    a scheduled language is what the turn of its own task made, in
    whatever order the tasks finished. *)
Lemma completion_loop_scheduled (j : nat) (c n : str) :
  NoDup (map fst to_translate) ->
  nth_error to_translate j = Some (c, n) ->
  kept input_path outdir final c
  = turn env input_path outdir
      {| fut_code := c; fut_name := n;
         fut_result := _task env parent text source_lang j c |}
      (None, None, dict_get (files w) (out_file input_path outdir c)).
Proof.
  intros Hnd Hj. unfold completion_loop.
  set (f := {| fut_code := c; fut_name := n;
               fut_result := _task env parent text source_lang j c |}).
  change c with (fut_code f) at 1.
  rewrite loop_same; [reflexivity| |].
  - apply (Permutation_NoDup (Permutation_sym order_codes) Hnd).
  - apply (Permutation_in _ (Permutation_sym order_perm)).
    apply (submit_all_nth _ 0 j _ c n Hj).
Qed.

End Block.

(** ** Outcomes of a run *)

Ltac distinct_codes :=
  repeat (apply NoDup_cons; [cbn; intuition discriminate|]); apply NoDup_nil.

(** C4.  A language can end in both maps: when its task returns a
    translation and writing its output file raises, the translation is
    already in [results] and the handler adds the language to [errors].
    Here French is scheduled once, its task succeeds, its file cannot be
    written, and French is a key of both maps. *)
Theorem outcome_in_both_maps_on_write_failure :
  exists st,
    translate_concurrently (stub_env (fun _ => tagging) fr_unwritable)
      stub_parent hello_world (lit "en") (lit "input.txt") (lit "out") true 8
      (worklist three_languages (lit "en") []) input_txt = Ok st
    /\ map fst (worklist three_languages (lit "en") []) = [lit "fr"; lit "de"]
    /\ dict_get (results st) (lit "fr") = Some (lit "fr:Hello
World
")
    /\ dict_get (errors st) (lit "fr")
       = Some (lit "[Errno 21] Is a directory: 'out/input.fr.txt'")
    /\ In (lit "fr") (dict_keys (results st))
    /\ In (lit "fr") (dict_keys (errors st)).
Proof.
  eexists. split; [vm_compute; reflexivity|].
  repeat split; try reflexivity; cbn; tauto.
Qed.

(** The part of C4 that holds on every run: the keys of [results] and of
    [errors] together are the codes of the worklist. *)
Lemma outcome_keys_complete (env : environment)
    (parent text source_lang input_path outdir : str)
    (include_language_names : bool) (max_workers : Z)
    (to_translate : list (str * str)) (w : world) :
  1 <= max_workers ->
  exists st,
    translate_concurrently env parent text source_lang input_path outdir
      include_language_names max_workers to_translate w = Ok st
    /\ forall c, In c (dict_keys (results st) ++ dict_keys (errors st))
                 <-> In c (map fst to_translate).
Proof.
  intros Hw. eexists. split; [now apply translate_concurrently_ok|].
  apply completion_loop_keys.
Qed.

(** And when no write raises and every code is scheduled once, no
    language is in both maps. *)
Lemma outcome_disjoint_when_writes_succeed (env : environment)
    (parent text source_lang input_path outdir : str)
    (include_language_names : bool) (max_workers : Z)
    (to_translate : list (str * str)) (w : world) :
  1 <= max_workers ->
  NoDup (map fst to_translate) ->
  (forall p, write_error env p = None) ->
  exists st,
    translate_concurrently env parent text source_lang input_path outdir
      include_language_names max_workers to_translate w = Ok st
    /\ forall c, ~ (In c (dict_keys (results st)) /\ In c (dict_keys (errors st))).
Proof.
  intros Hw Hnd Hwr. eexists. split; [now apply translate_concurrently_ok|].
  intros c [Hr He]. apply dict_get_keys in Hr, He.
  destruct (in_dec str_eq_dec c (map fst to_translate)) as [Hin|Hout].
  - apply in_map_iff in Hin. destruct Hin as ([c' n] & <- & Hin).
    apply In_nth_error in Hin. destruct Hin as [j Hj]. cbn [fst] in *.
    pose proof (completion_loop_scheduled env parent text source_lang input_path
                  outdir include_language_names max_workers to_translate w
                  j c' n Hnd Hj) as H.
    unfold kept, turn in H. cbn [fut_result fut_code fst snd] in H.
    rewrite Hwr in H.
    destruct (_task env parent text source_lang j c'); injection H as H1 H2 H3;
      congruence.
  - pose proof (completion_loop_unscheduled env parent text source_lang input_path
                  outdir include_language_names max_workers to_translate w
                  c Hout) as H.
    unfold kept in H. injection H as H1 H2 H3. congruence.
Qed.

(** C6.  In a run of [N] scheduled jobs the loop prints, behind the
    starting line, exactly [N] progress lines; their completed counts
    are 1, 2, ..., [N] in this order, each shows the total [N], and
    their language codes are the codes of the worklist, each job once. *)
Theorem progress_monotone (env : environment)
    (parent text source_lang input_path outdir : str)
    (include_language_names : bool) (max_workers : Z)
    (to_translate : list (str * str)) (w : world) :
  1 <= max_workers ->
  exists st lines,
    translate_concurrently env parent text source_lang input_path outdir
      include_language_names max_workers to_translate w = Ok st
    /\ stdout (now st) = stdout w ++ Starting :: lines
    /\ map line_completed lines = map Some (seq 1 (length to_translate))
    /\ map line_total lines
       = repeat (Some (length to_translate)) (length to_translate)
    /\ Permutation (map line_code lines) (map Some (map fst to_translate))
    /\ completed st = length to_translate.
Proof.
  intros Hw.
  destruct (completion_loop_stdout env parent text source_lang input_path outdir
              include_language_names max_workers to_translate w)
    as (lines & H1 & H2 & H3 & H4).
  eexists. exists lines. split; [now apply translate_concurrently_ok|].
  repeat split; try assumption. apply completion_loop_completed.
Qed.

Lemma progress_monotone_witness :
  exists st lines,
    translate_concurrently (stub_env fr_fails_at_second_chunk (fun _ => None))
      stub_parent long_text (lit "en") (lit "input.txt") (lit "out") true 8
      (worklist three_languages (lit "en") []) input_txt = Ok st
    /\ stdout (now st) = Starting :: lines
    /\ map line_completed lines = [Some 1%nat; Some 2%nat].
Proof.
  destruct (progress_monotone (stub_env fr_fails_at_second_chunk (fun _ => None))
              stub_parent long_text (lit "en") (lit "input.txt") (lit "out") true 8
              (worklist three_languages (lit "en") []) input_txt)
    as (st & lines & H1 & H2 & H3 & _); [lia|].
  exists st, lines. repeat split; assumption.
Defined.

Lemma task_same_service (env env' : environment)
    (parent text source_lang : str) (j : nat) (c : str) :
  client_translate_text env' j = client_translate_text env j ->
  _task env' parent text source_lang j c = _task env parent text source_lang j c.
Proof. intros H. unfold _task. now rewrite H. Qed.

Lemma turn_same_writes (env env' : environment) (input_path outdir : str)
    (f : future) (before : option str * option str * option str) :
  (forall p, write_error env' p = write_error env p) ->
  turn env' input_path outdir f before = turn env input_path outdir f before.
Proof. intros H. unfold turn. now rewrite H. Qed.






(** ** The worker count *)

(** [max(1, n)] is the coercion the specification describes. *)
Lemma max_is_spec_coercion (n : Z) : Z.max 1 n = spec_coerced_workers n.
Proof. unfold spec_coerced_workers. destruct (n <? 1) eqn:E; lia. Qed.

(** C8, as the code has it.  The coercion is in [main]: it hands on
    the configured worker count as the specification coerces it, a count
    of 1 or more.  So for a configured count below 1 the run from the
    command line is the run with a count of 1; once the setup has
    passed it is the completion loop over a pool of size 1 followed by
    the summary, and it returns normally.  [do_translate_all] does not
    coerce: with a count below 1 its pool raises [ValueError]. *)
Theorem worker_count_coercion (env : environment) (args : Namespace) (w : world) :
  main env args w
  = do_translate_all env (arg_project args) (arg_input args) (arg_outdir args)
      true (parse_exclude (arg_exclude args))
      (spec_coerced_workers (arg_workers args)) w
  /\ 1 <= spec_coerced_workers (arg_workers args)
  /\ (arg_workers args < 1 ->
      main env args w = main env (with_workers args 1) w
      /\ forall (text source_lang : str) (supported : list SupportedLanguage),
          let parent := get_parent (arg_project args) (lit "global") in
          let to_translate :=
            worklist supported source_lang (parse_exclude (arg_exclude args)) in
          read_text w (arg_input args) = Ok text ->
          list_supported_languages env parent = Ok supported ->
          detect_source_language env parent text = Ok source_lang ->
          mkdir_error env (arg_outdir args) = None ->
          let st :=
            completion_loop env parent text source_lang (arg_input args)
              (arg_outdir args) true 1 to_translate
              (print (Found (length supported) (length to_translate))
                 (print (Detected source_lang) w)) in
          main env args w = (Ok tt, summary (errors st) (now st)))
  /\ (forall parent text source_lang input_path outdir include_language_names
             max_workers to_translate w',
         max_workers <= 0 ->
         translate_concurrently env parent text source_lang input_path outdir
           include_language_names max_workers to_translate w'
         = Raise ValueError_max_workers).
Proof.
  split; [|split; [|split]].
  - unfold main. now rewrite max_is_spec_coercion.
  - rewrite <- max_is_spec_coercion. lia.
  - intros Hlt. assert (E : Z.max 1 (arg_workers args) = 1) by lia. split.
    + unfold main, with_workers.
      cbn [arg_project arg_input arg_outdir arg_exclude arg_workers].
      now rewrite E.
    + intros text source_lang supported parent to_translate Hread Hlist Hdetect
             Hmkdir st.
      unfold main, do_translate_all, ensure_outdir.
      fold parent. rewrite Hread, Hlist, Hdetect, Hmkdir, E.
      rewrite translate_concurrently_ok by lia.
      subst st to_translate. now rewrite length_map.
  - intros. now apply translate_concurrently_refused.
Qed.

Lemma worker_count_coercion_witness :
  main (stub_env (fun _ => tagging) (fun _ => None)) zero_workers input_txt
  = main (stub_env (fun _ => tagging) (fun _ => None))
      (with_workers zero_workers 1) input_txt
  /\ fst (main (stub_env (fun _ => tagging) (fun _ => None)) zero_workers input_txt)
     = Ok tt.
Proof.
  destruct (worker_count_coercion (stub_env (fun _ => tagging) (fun _ => None))
              zero_workers input_txt) as (_ & _ & H & _).
  destruct H as [Hsame Hrun]; [cbn; lia|].
  split; [exact Hsame|].
  rewrite (Hrun hello_world (lit "en") three_languages); reflexivity.
Defined.

(** C8, as it is worded of the scheduler, fails: handed a worker count
    of 0, [do_translate_all] raises at the pool, and handed 1 it runs
    to its end. *)
Lemma worker_count_coercion_counterexample :
  ~ (forall (env : environment) (project_id input_path outdir : str)
            (include_language_names : bool) (exclude : list str) (w : world),
        fst (do_translate_all env project_id input_path outdir
               include_language_names exclude 0 w)
        = fst (do_translate_all env project_id input_path outdir
                 include_language_names exclude 1 w)).
Proof.
  intros H.
  specialize (H (stub_env (fun _ => tagging) (fun _ => None))
                (lit "p") (lit "input.txt") (lit "out") true [] input_txt).
  vm_compute in H. discriminate H.
Qed.

(** Past [main], nothing coerces: [do_translate_all] called with a
    worker count below 1 stops at the pool. *)
Example do_translate_all_zero_workers :
  fst (do_translate_all (stub_env (fun _ => tagging) (fun _ => None))
         (lit "p") (lit "input.txt") (lit "out") true [] 0 input_txt)
  = Raise ValueError_max_workers.
Proof. vm_compute. reflexivity. Qed.

(** The end-to-end example of the specification: two output files, each
    the tagged text of the single chunk. *)
Example end_to_end :
  let run := do_translate_all (stub_env (fun _ => tagging) (fun _ => None))
               (lit "p") (lit "input.txt") (lit "out") true [] 8 input_txt in
  fst run = Ok tt
  /\ dict_get (files (snd run)) (lit "out/input.fr.txt") = Some (lit "fr:Hello
World
")
  /\ dict_get (files (snd run)) (lit "out/input.de.txt") = Some (lit "de:Hello
World
").
Proof. vm_compute. repeat split. Qed.

Example chunk_text_lines :
  chunk_text (lit "ab
cd
ef") 4 = [lit "ab
"; lit "cd
"; lit "ef"].
Proof. reflexivity. Qed.

Example splitlines_crlf :
  splitlines [97; 13; 10; 98; 13; 99; 8232; 100]%N
  = [[97; 13; 10]; [98; 13]; [99; 8232]; [100]]%N.
Proof. reflexivity. Qed.

(** * Further properties *)

(** ** The chunker: line boundaries and greedy filling *)

Lemma splitlines_nonempty (s l : str) : In l (splitlines s) -> l <> [].
Proof.
  intros H ->. apply splitlines_line in H. discriminate H.
Qed.

Lemma greedy_cons (m : Z) (g : list str) (l : str) (t : list str)
    (rest : list (list str)) :
  m < len (join g) + len l ->
  greedy m ((l :: t) :: rest) ->
  greedy m (g :: (l :: t) :: rest).
Proof. intros H1 H2. cbn [greedy]. split; assumption. Qed.

(** What the loop appends to [chunks]: the lines still to come, after
    those of the buffer, cut into groups. *)
Lemma chunk_loop_groups (m : Z) (lines chunks buf : list str) (count : Z) :
  count = len (join buf) ->
  exists groups,
    chunk_loop m lines chunks buf count = chunks ++ map join groups
    /\ concat groups = buf ++ lines
    /\ Forall (fun g => g <> []) groups
    /\ (buf <> [] -> exists t rest, groups = (buf ++ t) :: rest)
    /\ greedy m groups.
Proof.
  revert chunks buf count.
  induction lines as [|line rest IH]; intros chunks buf count Hcount.
  - destruct buf as [|b bs].
    + exists []. cbn. rewrite app_nil_r. repeat split; [constructor|congruence].
    + exists [b :: bs]. cbn [chunk_loop map concat]. rewrite !app_nil_r.
      repeat split.
      * constructor; [discriminate|constructor].
      * intros _. exists [], []. now rewrite app_nil_r.
  - cbn [chunk_loop].
    destruct (count + len line >? m) eqn:Hgt; cbn [andb].
    + destruct buf as [|b bs]; cbn [truthy].
      * destruct (IH chunks ([] ++ [line]) (count + len line))
          as (G & H1 & H2 & H3 & H4 & H5).
        { cbn [app]. rewrite join_single, Hcount. reflexivity. }
        exists G. repeat split; try assumption. congruence.
      * destruct (IH (chunks ++ [join (b :: bs)]) [line] (0 + len line))
          as (G & H1 & H2 & H3 & H4 & H5).
        { now rewrite join_single. }
        destruct (H4 ltac:(discriminate)) as (t & G' & ->).
        exists ((b :: bs) :: ([line] ++ t) :: G').
        rewrite H1, <- app_assoc.
        split; [reflexivity|]. split; [|split; [|split]].
        -- transitivity ((b :: bs) ++ concat (([line] ++ t) :: G'));
             [reflexivity | now rewrite H2].
        -- constructor; [discriminate|assumption].
        -- intros _. exists [], (([line] ++ t) :: G'). now rewrite app_nil_r.
        -- cbn [app]. apply greedy_cons; [|exact H5].
           rewrite Z.gtb_ltb in Hgt. apply Z.ltb_lt in Hgt. lia.
    + destruct (IH chunks (buf ++ [line]) (count + len line))
        as (G & H1 & H2 & H3 & H4 & H5).
      { rewrite join_app, join_single, len_app. lia. }
      exists G. repeat split; try assumption.
      * rewrite H2, <- app_assoc. reflexivity.
      * intros _. destruct H4 as (t & G' & ->); [now destruct buf|].
        exists ([line] ++ t), G'. now rewrite <- app_assoc.
Qed.

Lemma chunk_text_groups (text : str) (m : Z) :
  exists groups,
    chunk_text text m = map join groups
    /\ concat groups = splitlines text
    /\ (text <> [] -> Forall (fun g => g <> []) groups)
    /\ greedy m groups.
Proof.
  unfold chunk_text. destruct (len text <=? m).
  - exists [splitlines text]. cbn [map concat]. rewrite splitlines_join, app_nil_r.
    repeat split. intros Hne. constructor; [|constructor].
    intros E. apply Hne. rewrite <- (splitlines_join text), E. reflexivity.
  - destruct (chunk_loop_groups m (splitlines text) [] [] 0 eq_refl)
      as (G & H1 & H2 & H3 & _ & H5).
    exists G. split; [exact H1|]. split; [exact H2|].
    split; [intros _; exact H3|exact H5].
Qed.

Lemma concat_length_ge {A} (groups : list (list A)) :
  Forall (fun g => g <> []) groups -> (length groups <= length (concat groups))%nat.
Proof.
  induction 1 as [|g groups Hg _ IH]; cbn [concat length]; [lia|].
  rewrite length_app. destruct g; [contradiction|cbn [length]; lia].
Qed.

(** X1.  A chunk boundary never falls inside a line: the chunks of a
    text are its lines, taken in order and cut into consecutive groups,
    each group joined into one chunk.  For a text that is not empty no
    group is empty, so no chunk is empty and there are at most as many
    chunks as lines. *)
Theorem chunk_text_line_boundaries (text : str) (max_chars : Z) :
  exists groups : list (list str),
    chunk_text text max_chars = map join groups
    /\ concat groups = splitlines text
    /\ (text <> [] ->
        Forall (fun g => g <> []) groups
        /\ Forall (fun chunk => chunk <> []) (chunk_text text max_chars)
        /\ (length (chunk_text text max_chars) <= length (splitlines text))%nat).
Proof.
  destruct (chunk_text_groups text max_chars) as (G & H1 & H2 & H3 & _).
  exists G. split; [exact H1|]. split; [exact H2|].
  intros Hne. specialize (H3 Hne). split; [exact H3|]. split.
  - rewrite H1. apply Forall_forall. intros chunk Hin.
    apply in_map_iff in Hin. destruct Hin as (g & <- & Hg).
    pose proof (proj1 (Forall_forall _ _) H3 g Hg) as Hgne.
    destruct g as [|l g']; [contradiction|].
    assert (Hl : In l (splitlines text)).
    { rewrite <- H2. apply in_concat. exists (l :: g'). split; [exact Hg|now left]. }
    apply splitlines_nonempty in Hl. rewrite join_cons.
    destruct l; [contradiction|discriminate].
  - rewrite H1, length_map, <- H2. now apply concat_length_ge.
Qed.

Lemma chunk_text_line_boundaries_witness :
  Forall (fun chunk => chunk <> []) (chunk_text (lit "ab
abcdef
cd") 4)
  /\ (length (chunk_text (lit "ab
abcdef
cd") 4) <= 3)%nat.
Proof.
  destruct (chunk_text_line_boundaries (lit "ab
abcdef
cd") 4) as (G & _ & _ & H).
  destruct H as (_ & H1 & H2); [discriminate|].
  split; [exact H1|exact H2].
Defined.

(** X2.  The chunker fills greedily: in the grouping of the lines into
    chunks, a chunk together with the first line of the chunk behind it
    is longer than [max_chars], so no chunk was sealed while the next
    line still fitted. *)
Theorem chunk_text_greedy (text : str) (max_chars : Z) :
  exists groups : list (list str),
    chunk_text text max_chars = map join groups
    /\ concat groups = splitlines text
    /\ greedy max_chars groups.
Proof.
  destruct (chunk_text_groups text max_chars) as (G & H1 & H2 & _ & H4).
  exists G. repeat split; assumption.
Qed.

(** ** The chunker below its domain *)

Lemma len_pos (s : str) : s <> [] -> 1 <= len s.
Proof. destruct s; [contradiction|]. unfold len. cbn [length]. lia. Qed.

Lemma chunk_loop_one_line_each (m : Z) (lines chunks : list str) (b : str) :
  m <= 0 -> b <> [] -> Forall (fun l => l <> []) lines ->
  chunk_loop m lines chunks [b] (len b) = chunks ++ b :: lines.
Proof.
  intros Hm. revert chunks b.
  induction lines as [|line rest IH]; intros chunks b Hb Hlines; cbn [chunk_loop].
  - now rewrite join_single.
  - inversion Hlines as [|? ? Hline Hrest]; subst.
    pose proof (len_pos b Hb). pose proof (len_nonneg line).
    assert (E : (len b + len line >? m) = true)
      by (rewrite Z.gtb_ltb; apply Z.ltb_lt; lia).
    rewrite E. cbn [andb truthy]. rewrite join_single.
    change (0 + len line) with (len line).
    rewrite IH by assumption. now rewrite <- app_assoc.
Qed.

(** X3.  With a bound below 1 nothing fits beside anything: every line
    of a text that is not empty is a chunk of its own.  The empty text
    gives one empty chunk at bound 0 and no chunk at all below 0. *)
Theorem chunk_text_nonpositive (text : str) (max_chars : Z) :
  max_chars <= 0 ->
  (text <> [] -> chunk_text text max_chars = splitlines text)
  /\ (max_chars < 0 -> chunk_text [] max_chars = [])
  /\ chunk_text [] 0 = [[]].
Proof.
  intros Hm. split; [|split].
  - intros Hne. unfold chunk_text. pose proof (len_pos text Hne).
    destruct (len text <=? max_chars) eqn:E; [apply Z.leb_le in E; lia|].
    assert (Hlines : Forall (fun l => l <> []) (splitlines text))
      by (apply Forall_forall; intros l; apply splitlines_nonempty).
    destruct (splitlines text) as [|l1 rest]; [reflexivity|].
    inversion Hlines; subst. cbn [chunk_loop truthy]. rewrite andb_false_r.
    cbn [app]. change (0 + len l1) with (len l1).
    now rewrite chunk_loop_one_line_each.
  - intros Hneg. unfold chunk_text. cbn.
    destruct max_chars; try lia. reflexivity.
  - reflexivity.
Qed.

Lemma chunk_text_nonpositive_witness :
  chunk_text (lit "ab
cd
ef") 0 = [lit "ab
"; lit "cd
"; lit "ef"]
  /\ chunk_text [] (-1) = [].
Proof.
  destruct (chunk_text_nonpositive (lit "ab
cd
ef") 0) as (H1 & _ & _); [lia|].
  destruct (chunk_text_nonpositive [] (-1)) as (_ & H2 & _); [lia|].
  split; [apply H1; discriminate | apply H2; lia].
Defined.

(** ** The chunk translator, whatever the service does *)

Lemma translate_pieces_sent (parent target : str) (source : option str)
    (svc : service) (chunks pieces : list str) (sent : list request) :
  exists n,
    (n <= length chunks)%nat
    /\ snd (translate_pieces parent target source chunks pieces svc sent)
       = sent ++ map (chunk_request parent target source) (firstn n chunks)
    /\ match fst (translate_pieces parent target source chunks pieces svc sent) with
       | Ok _ => n = length chunks
       | Raise _ => (1 <= n)%nat
       end.
Proof.
  revert pieces sent. induction chunks as [|chunk rest IH]; intros pieces sent.
  - exists O. cbn. rewrite app_nil_r. auto.
  - rewrite translate_pieces_cons.
    destruct (svc (length sent) (chunk_request parent target source chunk))
      as [translations|e].
    + destruct (IH (pieces ++ [join translations])
                  (sent ++ [chunk_request parent target source chunk]))
        as (n & Hn & Hsent & Hres).
      exists (S n). cbn [length firstn map]. split; [lia|]. split.
      * rewrite Hsent, <- app_assoc. reflexivity.
      * destruct (fst _); lia.
    + exists 1%nat. cbn [length firstn map fst snd]. split; [lia|]. split;
        [reflexivity|lia].
Qed.

Lemma translate_full_text_sent
    (parent text target : str) (source : option str) (svc : service) :
  exists n,
    (n <= length (chunk_text text default_max_chars))%nat
    /\ snd (translate_full_text parent text target source svc [])
       = map (chunk_request parent target source)
           (firstn n (chunk_text text default_max_chars))
    /\ match fst (translate_full_text parent text target source svc []) with
       | Ok _ => n = length (chunk_text text default_max_chars)
       | Raise _ => (1 <= n)%nat
       end.
Proof.
  unfold translate_full_text, bind.
  destruct (translate_pieces_sent parent target source svc
              (chunk_text text default_max_chars) [] [])
    as (n & Hn & Hsent & Hres).
  exists n. split; [exact Hn|].
  destruct (translate_pieces parent target source
              (chunk_text text default_max_chars) [] svc [])
    as [[pieces|e] sent']; cbn [fst snd ret] in *; auto.
Qed.

(** X4.  Whatever the service answers, the requests a job sends are
    the requests of the first [n] chunks of the document, in order and
    once each: all of them when the job returns a text, at least one
    when it raises.  No request is repeated and none is sent out of
    order. *)
Theorem translate_full_text_sends_prefix
    (parent text target : str) (source : option str) (svc : service) :
  let chunks := chunk_text text default_max_chars in
  let run := translate_full_text parent text target source svc [] in
  exists n,
    (n <= length chunks)%nat
    /\ snd run = map (chunk_request parent target source) (firstn n chunks)
    /\ match fst run with
       | Ok _ => n = length chunks
       | Raise _ => (1 <= n)%nat
       end.
Proof. intros chunks run. apply translate_full_text_sent. Qed.

Lemma concat_singletons {A} (l : list A) : concat (map (fun x => [x]) l) = l.
Proof. induction l as [|x l IH]; cbn; [reflexivity|now rewrite IH]. Qed.

(** X5.  When a job returns a text, the contents of the requests it
    sent, joined in the order they were sent, are the document: every
    character went to the service exactly once. *)
Theorem translate_full_text_sends_whole_text
    (parent text target : str) (source : option str) (svc : service)
    (translated : str) :
  fst (translate_full_text parent text target source svc []) = Ok translated ->
  join (concat (map req_contents
                  (snd (translate_full_text parent text target source svc []))))
  = text.
Proof.
  intros Hok.
  destruct (translate_full_text_sent parent text target source svc)
    as (n & _ & Hsent & Hres).
  rewrite Hok in Hres. subst n. rewrite firstn_all in Hsent.
  rewrite Hsent, map_map. cbn [chunk_request req_contents].
  rewrite concat_singletons. apply chunk_text_join.
Qed.

Lemma translate_full_text_sends_whole_text_witness :
  join (concat (map req_contents
                  (snd (translate_full_text stub_parent hello_world (lit "fr")
                          (Some (lit "en")) tagging []))))
  = hello_world.
Proof.
  apply (translate_full_text_sends_whole_text stub_parent hello_world (lit "fr")
           (Some (lit "en")) tagging (lit "fr:Hello
World
")).
  reflexivity.
Defined.

(** ** The custom model path *)

Lemma split_on_app (sep : N) (a b : str) :
  ~ In sep a -> split_on sep (a ++ sep :: b) = a :: split_on sep b.
Proof.
  induction a as [|x a IH]; intros Ha; cbn [app split_on].
  - now rewrite N.eqb_refl.
  - destruct (N.eqb_spec x sep) as [->|_]; [exfalso; apply Ha; now left|].
    rewrite IH; [reflexivity|]. intros H. apply Ha. now right.
Qed.

Lemma split_on_no_sep (sep : N) (a : str) :
  ~ In sep a -> split_on sep a = [a].
Proof.
  induction a as [|x a IH]; intros Ha; cbn [split_on]; [reflexivity|].
  destruct (N.eqb_spec x sep) as [->|_]; [exfalso; apply Ha; now left|].
  rewrite IH; [reflexivity|]. intros H. apply Ha. now right.
Qed.

Lemma split_get_parent (project_id location : str) :
  ~ In slash project_id -> ~ In slash location ->
  split_on slash (get_parent project_id location)
  = [lit "projects"; project_id; lit "locations"; location].
Proof.
  intros Hp Hl. unfold get_parent.
  change (lit "projects/" ++ project_id ++ lit "/locations/" ++ location)
    with (lit "projects" ++ slash :: (project_id ++ slash :: (lit "locations" ++ slash :: location))).
  rewrite split_on_app.
  2:{ cbn. unfold slash. intuition discriminate. }
  rewrite split_on_app by assumption.
  rewrite split_on_app.
  2:{ cbn. unfold slash. intuition discriminate. }
  now rewrite split_on_no_sep.
Qed.

(** X6.  For a parent built by [get_parent] from a project and a
    location without a slash, the model path [translate_chunk] builds
    is that parent followed by [/models/] and the model: splitting the
    parent gives back the project and the location it was built from. *)
Theorem model_path_of_get_parent (project_id location model : str) :
  ~ In slash project_id -> ~ In slash location ->
  model_path (get_parent project_id location) model
  = Ok (get_parent project_id location ++ lit "/models/" ++ model).
Proof.
  intros Hp Hl. unfold model_path. rewrite split_get_parent by assumption.
  cbn [index nth_error]. unfold get_parent. now rewrite <- !app_assoc.
Qed.

Lemma model_path_of_get_parent_witness :
  model_path (get_parent (lit "p") (lit "global")) (lit "general/nmt")
  = Ok (lit "projects/p/locations/global/models/general/nmt").
Proof.
  apply (model_path_of_get_parent (lit "p") (lit "global") (lit "general/nmt"));
    cbn; unfold slash; intuition discriminate.
Defined.

(** X7.  With a model and a parent of fewer than four components
    between slashes, [translate_chunk] raises [IndexError] while it
    builds the request: nothing is sent to the service. *)
Theorem translate_chunk_short_parent
    (parent text_chunk target_lang : str) (source_lang : option str)
    (mime_type model : str) (svc : service) (sent : list request) :
  (length (split_on slash parent) < 4)%nat ->
  model <> [] ->
  translate_chunk parent text_chunk target_lang source_lang mime_type
    (Some model) svc sent
  = (Raise IndexError, sent).
Proof.
  intros Hlen Hm. unfold translate_chunk.
  destruct model as [|c model']; [contradiction|]. cbn [truthy].
  unfold model_path, index.
  destruct (nth_error (split_on slash parent) 1) as [project|]; [|reflexivity].
  destruct (nth_error (split_on slash parent) 3) as [location|] eqn:E;
    [|reflexivity].
  exfalso. assert (H : nth_error (split_on slash parent) 3 <> None) by congruence.
  apply nth_error_Some in H. lia.
Qed.

Lemma translate_chunk_short_parent_witness :
  translate_chunk (lit "projects/p") (lit "Hello") (lit "fr") None text_plain
    (Some (lit "general/nmt")) tagging []
  = (Raise IndexError, []).
Proof.
  apply translate_chunk_short_parent; [cbn; lia | discriminate].
Defined.

(** ** Detection of the source language *)

(** X8.  Detection sees the first 5000 characters of the document and
    nothing else: two documents that agree on them get the same answer,
    be it a code or an exception.  A response without any language
    raises [IndexError]. *)
Theorem detect_source_language_sample (env : environment) (parent text : str) :
  (forall text', firstn 5000 text' = firstn 5000 text ->
                 detect_source_language env parent text'
                 = detect_source_language env parent text)
  /\ (detect_language env parent (firstn 5000 text) text_plain = Ok [] ->
      detect_source_language env parent text = Raise IndexError).
Proof.
  split.
  - intros text' H. unfold detect_source_language. now rewrite H.
  - intros H. unfold detect_source_language. now rewrite H.
Qed.

Lemma detect_source_language_sample_witness :
  detect_source_language by_length_env stub_parent (long_text ++ lit "tail")
  = detect_source_language by_length_env stub_parent long_text
  /\ detect_source_language by_length_env stub_parent long_text = Raise IndexError.
Proof.
  destruct (detect_source_language_sample by_length_env stub_parent long_text)
    as [Hsame Hempty].
  split.
  - apply Hsame. vm_compute. reflexivity.
  - apply Hempty. vm_compute. reflexivity.
Defined.

(** ** The worklist: what is in it, in which order, under which name *)

Lemma scheduled_iff (source_lang : str) (exclude : list str) (code : str) :
  scheduled source_lang exclude code = true
  <-> code <> source_lang /\ ~ In code exclude.
Proof.
  unfold scheduled. rewrite andb_true_iff, !negb_true_iff, str_eqb_neq.
  split; intros [H1 H2]; split; try assumption.
  - intros Hin. apply contains_In in Hin. congruence.
  - destruct (contains exclude code) eqn:E; [|reflexivity].
    apply contains_In in E. contradiction.
Qed.

(** X9.  The worklist is complete and keeps the order of the listing:
    its codes are the codes of the listing, in listing order and as
    often as listed, without the source code and the excluded codes. *)
Theorem worklist_complete (supported : list SupportedLanguage)
    (source_lang : str) (exclude : list str) :
  map fst (worklist supported source_lang exclude)
  = filter (scheduled source_lang exclude) (map language_code supported)
  /\ (forall code,
         In code (map fst (worklist supported source_lang exclude))
         <-> In code (map language_code supported)
             /\ code <> source_lang /\ ~ In code exclude).
Proof.
  split; [apply worklist_codes|].
  intros code. rewrite worklist_codes, filter_In, scheduled_iff. tauto.
Qed.

Lemma worklist_complete_witness :
  In (lit "de") (map fst (worklist three_languages (lit "en") [lit "fr"])).
Proof.
  apply (worklist_complete three_languages (lit "en") [lit "fr"]).
  split; [cbn; tauto|]. split; [discriminate|].
  cbn. intuition discriminate.
Defined.

Local Abbreviation set_name :=
  (fun (d : dict str) (lang : SupportedLanguage) =>
     dict_set d (language_code lang)
       (str_or (display_name lang) (language_code lang))).

Lemma names_fold_get (supported : list SupportedLanguage) (d : dict str)
    (code v : str) :
  dict_get (fold_left set_name supported d) code = Some v ->
  dict_get d code = Some v
  \/ exists lang, In lang supported /\ language_code lang = code
                  /\ v = str_or (display_name lang) code.
Proof.
  revert d. induction supported as [|l0 rest IH]; intros d H; cbn [fold_left] in H;
    [now left|].
  apply IH in H. cbv beta in H. destruct H as [H|(lang & Hin & Hc & Hv)].
  - destruct (str_eq_dec (language_code l0) code) as [E|Hne].
    + rewrite E, dict_get_set_same in H. injection H as <-.
      right. exists l0. split; [now left|]. split; [exact E|reflexivity].
    + rewrite dict_get_set_other in H by assumption. now left.
  - right. exists lang. split; [now right|]. now split.
Qed.

Lemma names_fold_other (supported : list SupportedLanguage) (d : dict str)
    (code : str) :
  ~ In code (map language_code supported) ->
  dict_get (fold_left set_name supported d) code = dict_get d code.
Proof.
  revert d. induction supported as [|l0 rest IH]; intros d H; cbn [fold_left];
    [reflexivity|].
  cbn [map In] in H. rewrite IH by tauto. cbv beta.
  apply dict_get_set_other. tauto.
Qed.

Lemma names_fold_unique (supported : list SupportedLanguage) (d : dict str)
    (lang : SupportedLanguage) :
  NoDup (map language_code supported) -> In lang supported ->
  dict_get (fold_left set_name supported d) (language_code lang)
  = Some (str_or (display_name lang) (language_code lang)).
Proof.
  revert d. induction supported as [|l0 rest IH]; intros d Hnd Hin; [contradiction|].
  cbn [map] in Hnd. inversion Hnd as [|? ? H0 Hnd']; subst.
  cbn [fold_left]. destruct Hin as [->|Hin].
  - rewrite names_fold_other by assumption. cbv beta. apply dict_get_set_same.
  - now apply IH.
Qed.

Lemma names_fold_in (supported : list SupportedLanguage) (d : dict str)
    (code : str) :
  In code (map language_code supported) \/ dict_get d code <> None ->
  dict_get (fold_left set_name supported d) code <> None.
Proof.
  revert d. induction supported as [|l0 rest IH]; intros d H; cbn [fold_left].
  - destruct H as [[]|H]. exact H.
  - apply IH. cbv beta.
    destruct (str_eq_dec (language_code l0) code) as [E|Hne].
    + right. rewrite E, dict_get_set_same. discriminate.
    + rewrite dict_get_set_other by assumption.
      destruct H as [[H|H]|H]; [contradiction|now left|now right].
Qed.

Lemma build_worklist_entries (names : dict str) (source_lang : str)
    (exclude codes : list str) (acc : list (str * str)) (entry : str * str) :
  In entry (build_worklist names source_lang exclude codes acc)
  <-> In entry acc
      \/ (In (fst entry) codes
          /\ scheduled source_lang exclude (fst entry) = true
          /\ snd entry = dict_get_default names (fst entry) (fst entry)).
Proof.
  revert acc. induction codes as [|code rest IH]; intros acc; cbn [build_worklist].
  - cbn [In]. tauto.
  - assert (Hskip : scheduled source_lang exclude code = false ->
                    (In entry acc
                     \/ In (fst entry) rest
                        /\ scheduled source_lang exclude (fst entry) = true
                        /\ snd entry = dict_get_default names (fst entry) (fst entry))
                    <-> (In entry acc
                         \/ In (fst entry) (code :: rest)
                            /\ scheduled source_lang exclude (fst entry) = true
                            /\ snd entry
                               = dict_get_default names (fst entry) (fst entry))).
    { intros Hs. cbn [In]. split; [tauto|].
      intros [H|([E|H] & H2 & H3)]; [tauto| |tauto]. subst code. congruence. }
    destruct (str_eqb code source_lang) eqn:E1.
    { rewrite IH. apply Hskip. unfold scheduled. now rewrite E1. }
    destruct (contains exclude code) eqn:E2.
    { rewrite IH. apply Hskip. unfold scheduled. now rewrite E1, E2. }
    rewrite IH, in_app_iff. cbn [In]. destruct entry as [c n]. cbn [fst snd].
    split.
    + intros [[H|[H|[]]]|(H1 & H2 & H3)]; [tauto| |tauto].
      injection H as <- <-. right. unfold scheduled. rewrite E1, E2. tauto.
    + intros [H|([<-|H1] & H2 & H3)]; [tauto| |tauto].
      left. right. left. now rewrite H3.
Qed.

(** X10.  The name that goes with a code of the worklist is the display
    name of a listed language with that code, or the code itself where
    that display name is empty; it is never empty for a code that is
    not.  With unique codes in the listing, every listed language that
    is neither the source nor excluded is in the worklist under exactly
    that name. *)
Theorem worklist_names (supported : list SupportedLanguage)
    (source_lang : str) (exclude : list str) :
  (forall code name,
      In (code, name) (worklist supported source_lang exclude) ->
      (exists lang, In lang supported /\ language_code lang = code
                    /\ name = str_or (display_name lang) code)
      /\ (code <> [] -> name <> []))
  /\ (NoDup (map language_code supported) ->
      forall lang, In lang supported ->
        language_code lang <> source_lang ->
        ~ In (language_code lang) exclude ->
        In (language_code lang,
            str_or (display_name lang) (language_code lang))
           (worklist supported source_lang exclude)).
Proof.
  split.
  - intros code name Hin. unfold worklist in Hin.
    apply build_worklist_entries in Hin. cbn [fst snd] in Hin.
    destruct Hin as [[]|(Hc & _ & Hn)].
    assert (Hlang : exists lang, In lang supported /\ language_code lang = code
                                 /\ name = str_or (display_name lang) code).
    { unfold dict_get_default in Hn.
      destruct (dict_get (name_by_code supported) code) as [v|] eqn:E.
      - unfold name_by_code in E. apply names_fold_get in E.
        destruct E as [E|E]; [discriminate|]. now subst v.
      - exfalso. unfold name_by_code in E. revert E.
        apply names_fold_in. now left. }
    split; [exact Hlang|].
    destruct Hlang as (lang & _ & _ & ->). intros Hne. unfold str_or.
    destruct (display_name lang); cbn [truthy]; [assumption|discriminate].
  - intros Hnd lang Hin Hsrc Hex. unfold worklist.
    apply build_worklist_entries. right. cbn [fst snd]. split; [|split].
    + now apply in_map.
    + now apply scheduled_iff.
    + unfold dict_get_default, name_by_code.
      now rewrite names_fold_unique.
Qed.

Lemma worklist_names_witness :
  In (lit "de", lit "de") (worklist three_languages (lit "en") [])
  /\ (lit "fr" <> [] -> lit "French" <> []).
Proof.
  destruct (worklist_names three_languages (lit "en") []) as [Hname Hin].
  split.
  - apply (Hin ltac:(unfold three_languages; cbn [map language_code]; distinct_codes)
             {| language_code := lit "de"; display_name := [] |}).
    + cbn. tauto.
    + discriminate.
    + intros [].
  - apply (Hname (lit "fr") (lit "French")). cbn. tauto.
Defined.

(** ** The exclusion list of the command line *)

Lemma lstrip_starts_clean (s : str) : starts_clean (lstrip s) = true.
Proof.
  induction s as [|c s IH]; cbn [lstrip]; [reflexivity|].
  destruct (is_space c) eqn:E; [exact IH|]. cbn [starts_clean]. now rewrite E.
Qed.

Lemma lstrip_fixed (s : str) : starts_clean s = true -> lstrip s = s.
Proof.
  destruct s as [|c s]; cbn [starts_clean lstrip]; [reflexivity|].
  intros H. apply negb_true_iff in H. now rewrite H.
Qed.

Lemma lstrip_suffix (s : str) : exists pre, s = pre ++ lstrip s.
Proof.
  induction s as [|c s [pre IH]]; cbn [lstrip]; [now exists []|].
  destruct (is_space c).
  - exists (c :: pre). cbn [app]. now rewrite <- IH.
  - now exists [].
Qed.

Lemma starts_clean_prefix (a b : str) :
  starts_clean (a ++ b) = true -> a <> [] -> starts_clean a = true.
Proof. destruct a; [contradiction|]. now cbn. Qed.

Lemma strip_trimmed (s : str) : trimmed (strip s) = true.
Proof.
  unfold trimmed, strip. rewrite rev_involutive, lstrip_starts_clean, andb_true_r.
  destruct (lstrip_suffix (rev (lstrip s))) as [pre Hpre].
  destruct (rev (lstrip (rev (lstrip s)))) as [|c t] eqn:E; [reflexivity|].
  apply (starts_clean_prefix _ (rev pre)); [|discriminate].
  rewrite <- E, <- rev_app_distr, <- Hpre, rev_involutive.
  apply lstrip_starts_clean.
Qed.

Lemma strip_fixed (s : str) : trimmed s = true -> strip s = s.
Proof.
  unfold trimmed, strip. intros H. apply andb_prop in H. destruct H as [H1 H2].
  rewrite (lstrip_fixed s H1), (lstrip_fixed (rev s) H2). apply rev_involutive.
Qed.

Lemma strip_subset (s : str) (c : N) : In c (strip s) -> In c s.
Proof.
  unfold strip. intros H. apply in_rev in H.
  destruct (lstrip_suffix (rev (lstrip s))) as [pre1 H1].
  assert (H' : In c (rev (lstrip s))) by (rewrite H1; apply in_or_app; now right).
  apply in_rev in H'.
  destruct (lstrip_suffix s) as [pre2 H2]. rewrite H2. apply in_or_app. now right.
Qed.

Lemma split_on_parts (sep : N) (s p : str) :
  In p (split_on sep s) -> ~ In sep p.
Proof.
  revert p. induction s as [|c s IH]; intros p; cbn [split_on].
  - intros [<-|[]] [].
  - destruct (N.eqb_spec c sep) as [->|Hne].
    + intros [<-|H]; [intros []|now apply IH].
    + destruct (split_on sep s) as [|q qs] eqn:E.
      * intros [<-|[]] [H|[]]. congruence.
      * intros [<-|H].
        -- intros [H|H]; [congruence|]. revert H. apply IH. now left.
        -- apply IH. now right.
Qed.

(** X11.  Every code [main] takes from [--exclude] is clean: it is not
    empty, holds no comma, and has no white space at either end, so
    stripping it again changes nothing. *)
Theorem parse_exclude_clean (s c : str) :
  In c (parse_exclude s) ->
  c <> [] /\ ~ In comma c /\ trimmed c = true /\ strip c = c.
Proof.
  unfold parse_exclude. intros H. apply in_map_iff in H.
  destruct H as (x & <- & Hx). apply filter_In in Hx. destruct Hx as [Hx Ht].
  split; [|split; [|split]].
  - destruct (strip x); [discriminate|discriminate].
  - intros Hc. apply strip_subset in Hc. revert Hc. now apply (split_on_parts comma s).
  - apply strip_trimmed.
  - apply strip_fixed, strip_trimmed.
Qed.

Lemma parse_exclude_clean_witness :
  lit "fr" <> [] /\ ~ In comma (lit "fr") /\ trimmed (lit "fr") = true
  /\ strip (lit "fr") = lit "fr".
Proof.
  apply (parse_exclude_clean (lit " en , ,fr,,de ") (lit "fr")).
  vm_compute. tauto.
Defined.

Lemma split_on_intercalate (sep : N) (codes : list str) :
  codes <> [] -> Forall (fun c => ~ In sep c) codes ->
  split_on sep (intercalate sep codes) = codes.
Proof.
  induction codes as [|c rest IH]; intros Hne H; [contradiction|].
  inversion H as [|? ? Hc Hrest]; subst. destruct rest as [|c' rest'].
  - cbn [intercalate]. now apply split_on_no_sep.
  - change (intercalate sep (c :: c' :: rest'))
      with (c ++ sep :: intercalate sep (c' :: rest')).
    rewrite split_on_app by assumption. rewrite IH; [reflexivity|discriminate|assumption].
Qed.

(** X12.  Codes that are clean (not empty, without a comma, without
    white space at either end), joined by commas on the command line,
    come back from [--exclude] as they were, in the same order. *)
Theorem parse_exclude_round_trip (codes : list str) :
  Forall (fun c => c <> [] /\ ~ In comma c /\ trimmed c = true) codes ->
  parse_exclude (intercalate comma codes) = codes.
Proof.
  intros H. destruct codes as [|c0 rest]; [reflexivity|].
  unfold parse_exclude. rewrite split_on_intercalate.
  - generalize dependent (c0 :: rest). intros codes.
    induction 1 as [|c codes (Hne & _ & Ht) _ IH]; [reflexivity|].
    cbn [filter map]. rewrite (strip_fixed c Ht).
    destruct c; [contradiction|]. cbn [truthy map].
    rewrite (strip_fixed _ Ht). now rewrite IH.
  - discriminate.
  - apply Forall_forall. intros c Hc.
    now apply (proj1 (Forall_forall _ _) H c Hc).
Qed.

Lemma parse_exclude_round_trip_witness :
  parse_exclude (lit "en,zh-CN,pt br") = [lit "en"; lit "zh-CN"; lit "pt br"].
Proof.
  apply (parse_exclude_round_trip [lit "en"; lit "zh-CN"; lit "pt br"]).
  repeat constructor; try discriminate; cbn; unfold comma; intuition discriminate.
Defined.

(** ** What a run leaves for a language whose task returned *)

(** X13.  When the task of a language returns a translation and its
    output path can be written, the run ends with the translation in
    [results], the language absent from [errors], and the output file
    holding exactly the translation, whatever the file held before. *)
Theorem success_persisted (env : environment)
    (parent text source_lang input_path outdir : str)
    (include_language_names : bool) (max_workers : Z)
    (to_translate : list (str * str)) (w : world)
    (j : nat) (code name translated : str) :
  1 <= max_workers ->
  NoDup (map fst to_translate) ->
  nth_error to_translate j = Some (code, name) ->
  _task env parent text source_lang j code = Ok translated ->
  write_error env (out_file input_path outdir code) = None ->
  exists st,
    translate_concurrently env parent text source_lang input_path outdir
      include_language_names max_workers to_translate w = Ok st
    /\ dict_get (results st) code = Some translated
    /\ dict_get (errors st) code = None
    /\ dict_get (files (now st)) (out_file input_path outdir code)
       = Some translated.
Proof.
  intros Hw Hnd Hj Hok Hwr.
  eexists. split; [now apply translate_concurrently_ok|].
  pose proof (completion_loop_scheduled env parent text source_lang input_path
                outdir include_language_names max_workers to_translate w
                j code name Hnd Hj) as H.
  unfold kept, turn in H. cbn [fut_result fut_code fst snd] in H.
  rewrite Hok, Hwr in H. injection H as H1 H2 H3. auto.
Qed.

Lemma success_persisted_witness :
  exists st,
    translate_concurrently (stub_env fr_fails_at_second_chunk (fun _ => None))
      stub_parent long_text (lit "en") (lit "input.txt") (lit "out") true 8
      (worklist three_languages (lit "en") []) input_txt = Ok st
    /\ dict_get (files (now st)) (lit "out/input.de.txt")
       = Some (lit "de:" ++ firstn 4500 long_text ++ lit "de:" ++ skipn 4500 long_text).
Proof.
  destruct (success_persisted (stub_env fr_fails_at_second_chunk (fun _ => None))
              stub_parent long_text (lit "en") (lit "input.txt") (lit "out") true 8
              (worklist three_languages (lit "en") []) input_txt
              1 (lit "de") (lit "de")
              (lit "de:" ++ firstn 4500 long_text ++ lit "de:" ++ skipn 4500 long_text))
    as (st & H1 & _ & _ & H4).
  - lia.
  - distinct_codes.
  - reflexivity.
  - vm_compute. reflexivity.
  - reflexivity.
  - exists st. split; assumption.
Defined.

(** X14.  When the task of a language returns a translation and
    writing its output file raises, at the open or after it, the
    language is recorded in [errors] with the text of that exception,
    while the translation stays in [results]. *)
Theorem write_failure_reported (env : environment)
    (parent text source_lang input_path outdir : str)
    (include_language_names : bool) (max_workers : Z)
    (to_translate : list (str * str)) (w : world)
    (j : nat) (code name translated : str) (failure : write_failure) :
  1 <= max_workers ->
  NoDup (map fst to_translate) ->
  nth_error to_translate j = Some (code, name) ->
  _task env parent text source_lang j code = Ok translated ->
  write_error env (out_file input_path outdir code) = Some failure ->
  exists st,
    translate_concurrently env parent text source_lang input_path outdir
      include_language_names max_workers to_translate w = Ok st
    /\ dict_get (errors st) code = Some (str_of_exn (failure_exn failure))
    /\ dict_get (results st) code = Some translated.
Proof.
  intros Hw Hnd Hj Hok Hwr.
  eexists. split; [now apply translate_concurrently_ok|].
  pose proof (completion_loop_scheduled env parent text source_lang input_path
                outdir include_language_names max_workers to_translate w
                j code name Hnd Hj) as H.
  unfold kept, turn in H. cbn [fut_result fut_code fst snd] in H.
  rewrite Hok, Hwr in H.
  destruct failure as [e|e residue]; injection H as H1 H2 _; auto.
Qed.

Lemma write_failure_reported_witness :
  exists st,
    translate_concurrently (stub_env (fun _ => tagging) fr_disk_full)
      stub_parent hello_world (lit "en") (lit "input.txt") (lit "out") true 8
      (worklist three_languages (lit "en") []) input_txt = Ok st
    /\ dict_get (errors st) (lit "fr")
       = Some (lit "[Errno 28] No space left on device").
Proof.
  destruct (write_failure_reported (stub_env (fun _ => tagging) fr_disk_full)
              stub_parent hello_world (lit "en") (lit "input.txt") (lit "out") true 8
              (worklist three_languages (lit "en") []) input_txt
              0 (lit "fr") (lit "French") (lit "fr:Hello
World
") (AfterOpen (Raised (lit "[Errno 28] No space left on device")) []))
    as (st & H1 & H2 & _).
  - lia.
  - distinct_codes.
  - reflexivity.
  - reflexivity.
  - reflexivity.
  - exists st. split; assumption.
Defined.

(** ** The summary lines *)

Lemma print_items (items : list (str * str)) (w0 : world) :
  fold_left (fun w' item => print (FailedItem (fst item) (snd item)) w') items w0
  = {| files := files w0;
       stdout := stdout w0
                 ++ map (fun item => FailedItem (fst item) (snd item)) items |}.
Proof.
  revert w0. induction items as [|i items IH]; intros w0; cbn [fold_left map].
  - destruct w0. cbn. now rewrite app_nil_r.
  - rewrite IH. unfold print. cbn [files stdout]. now rewrite <- app_assoc.
Qed.

Lemma summary_run (errors : dict str) (w : world) :
  summary errors w
  = {| files := files w; stdout := stdout w ++ Done :: closing errors |}.
Proof.
  unfold summary, closing. destruct errors as [|item items]; cbn [truthy].
  - unfold print. cbn [files stdout]. now rewrite <- app_assoc.
  - rewrite print_items. unfold print. cbn [files stdout].
    now rewrite <- !app_assoc.
Qed.

(** ** The summary against the progress lines *)

Lemma dict_set_fresh {V} (d : dict V) (k : str) (v : V) :
  ~ In k (dict_keys d) -> dict_set d k v = d ++ [(k, v)].
Proof.
  induction d as [|[k' v'] d IH]; intros H; cbn [dict_set app]; [reflexivity|].
  cbn [dict_keys map fst In] in H.
  destruct (str_eqb k' k) eqn:E.
  - apply str_eqb_eq in E. tauto.
  - rewrite IH; [reflexivity|]. intros Hin. apply H. now right.
Qed.

(** One turn prints one line; what it adds to [errors] is what the line
    reports. *)
Lemma body_line (env : environment) (input_path outdir : str)
    (include_language_names : bool) (total : nat)
    (st : loop_state) (f : future) :
  ~ In (fut_code f) (dict_keys (errors st)) ->
  exists l,
    stdout (now (loop_body env input_path outdir include_language_names total st f))
    = stdout (now st) ++ [l]
    /\ line_completed l = Some (S (completed st))
    /\ errors (loop_body env input_path outdir include_language_names total st f)
       = errors st ++ failures [l]
    /\ (forall c, In c (dict_keys
                          (errors (loop_body env input_path outdir
                                     include_language_names total st f))) ->
                  c = fut_code f \/ In c (dict_keys (errors st))).
Proof.
  intros Hfresh. unfold loop_body, write_text, on_exception.
  destruct (fut_result f) as [translated|e];
    [destruct (write_error env _) as [[e|e residue]|]|].
  - eexists. split; [reflexivity|]. split; [reflexivity|].
    cbn [errors failures line_failure]. split.
    + now apply dict_set_fresh.
    + intros c Hc. now apply dict_keys_set in Hc.
  - eexists. split; [reflexivity|]. split; [reflexivity|].
    cbn [errors failures line_failure]. split.
    + now apply dict_set_fresh.
    + intros c Hc. now apply dict_keys_set in Hc.
  - eexists. split; [reflexivity|]. split; [reflexivity|].
    cbn [errors failures line_failure]. split; [now rewrite app_nil_r|tauto].
  - eexists. split; [reflexivity|]. split; [reflexivity|].
    cbn [errors failures line_failure]. split.
    + now apply dict_set_fresh.
    + intros c Hc. now apply dict_keys_set in Hc.
Qed.

Lemma failures_app (a b : list line) : failures (a ++ b) = failures a ++ failures b.
Proof.
  induction a as [|l a IH]; cbn [app failures]; [reflexivity|].
  destruct (line_failure l); cbn [app]; now rewrite IH.
Qed.

Lemma loop_errors (env : environment) (input_path outdir : str)
    (include_language_names : bool) (total : nat)
    (order : list future) (st : loop_state) :
  NoDup (map fut_code order) ->
  (forall c, In c (map fut_code order) -> ~ In c (dict_keys (errors st))) ->
  exists lines,
    stdout (now (fold_left
                   (loop_body env input_path outdir include_language_names total)
                   order st))
    = stdout (now st) ++ lines
    /\ map line_completed lines = map Some (seq (S (completed st)) (length order))
    /\ errors (fold_left
                 (loop_body env input_path outdir include_language_names total)
                 order st)
       = errors st ++ failures lines.
Proof.
  revert st. induction order as [|f order IH]; intros st Hnd Hfresh; cbn [fold_left].
  - exists []. cbn. now rewrite !app_nil_r.
  - cbn [map] in Hnd. inversion Hnd as [|? ? Hf Hnd']; subst.
    destruct (body_line env input_path outdir include_language_names total st f)
      as (l & H1 & H2 & H3 & H4).
    { apply Hfresh. now left. }
    destruct (IH (loop_body env input_path outdir include_language_names total st f)
                Hnd') as (lines & K1 & K2 & K3).
    { intros c Hc Hin. apply H4 in Hin. destruct Hin as [->|Hin]; [contradiction|].
      revert Hin. apply Hfresh. now right. }
    exists (l :: lines). rewrite K1, K3, H1, H3, <- !app_assoc.
    split; [reflexivity|]. split.
    + cbn [map length seq]. rewrite H2, K2.
      rewrite (body_completed env input_path outdir include_language_names total).
      reflexivity.
    + f_equal. change (l :: lines) with ([l] ++ lines). now rewrite failures_app.
Qed.

(** X18.  The output of a run that passed its setup, for a listing with
    unique codes: the detected source, the two counts, the starting
    line, one progress line per scheduled language with the counts 1 to
    N, then the closing lines.  These say that all languages succeeded
    exactly when no progress line reported a failure, and otherwise
    list the failures of the progress lines, in the order they were
    printed and with the same error texts. *)
Theorem do_translate_all_output (env : environment)
    (project_id input_path outdir : str) (include_language_names : bool)
    (exclude : list str) (max_workers : Z) (w : world)
    (text source_lang : str) (supported : list SupportedLanguage) :
  read_text w input_path = Ok text ->
  list_supported_languages env (get_parent project_id (lit "global")) = Ok supported ->
  detect_source_language env (get_parent project_id (lit "global")) text
  = Ok source_lang ->
  mkdir_error env outdir = None ->
  1 <= max_workers ->
  NoDup (map language_code supported) ->
  let to_translate := worklist supported source_lang exclude in
  exists lines,
    stdout (snd (do_translate_all env project_id input_path outdir
                   include_language_names exclude max_workers w))
    = stdout w
      ++ [Detected source_lang;
          Found (length supported) (length to_translate);
          Starting]
      ++ lines ++ Done :: closing (failures lines)
    /\ map line_completed lines = map Some (seq 1 (length to_translate)).
Proof.
  intros Hread Hlist Hdetect Hmkdir Hw Hnd to_translate.
  unfold do_translate_all, ensure_outdir.
  rewrite Hread, Hlist, Hdetect, Hmkdir, translate_concurrently_ok by assumption.
  cbn [snd]. rewrite summary_run. cbn [stdout]. fold to_translate.
  unfold completion_loop.
  set (future_map := submit_all _ 0 to_translate).
  set (order := as_completed _ future_map).
  assert (Hperm : Permutation (map fut_code order) (map fst to_translate)).
  { unfold order, future_map. apply order_codes. }
  destruct (loop_errors env input_path outdir include_language_names
              (length future_map) order
              {| results := []; errors := []; completed := 0;
                 now := print Starting
                          (print (Found (length (map language_code supported))
                                    (length to_translate))
                             (print (Detected source_lang) w)) |})
    as (lines & K1 & K2 & K3).
  { apply (Permutation_NoDup (Permutation_sym Hperm)).
    now apply worklist_codes_unique. }
  { intros c _ []. }
  exists lines. rewrite K1, K3. cbn [errors completed now print stdout app] in *.
  rewrite length_map, <- !app_assoc. cbn [app]. split; [reflexivity|].
  rewrite K2. f_equal. f_equal.
  rewrite <- (length_map fut_code), (Permutation_length Hperm). apply length_map.
Qed.

Lemma do_translate_all_output_witness :
  exists lines,
    stdout (snd (do_translate_all (stub_env fr_fails_at_second_chunk (fun _ => None))
                   (lit "p") (lit "input.txt") (lit "out") true [] 8 input_txt))
    = [Detected (lit "en"); Found 3 2; Starting]
      ++ lines ++ Done :: closing (failures lines)
    /\ map line_completed lines = [Some 1%nat; Some 2%nat].
Proof.
  apply (do_translate_all_output (stub_env fr_fails_at_second_chunk (fun _ => None))
           (lit "p") (lit "input.txt") (lit "out") true [] 8 input_txt
           hello_world (lit "en") three_languages); try reflexivity.
  - lia.
  - unfold three_languages. cbn [map language_code]. distinct_codes.
Defined.

(** ** Order of completion and size of the pool *)

(** X19.  With unique codes in the worklist, what a run holds at its
    end for each language (its entry of [results], its entry of
    [errors], its output file) does not depend on the order in which
    the tasks finish nor on the size of the pool, as long as that size
    is 1 or more. *)
Theorem outcome_independent_of_schedule (env env' : environment)
    (parent text source_lang input_path outdir : str)
    (include_language_names : bool) (max_workers max_workers' : Z)
    (to_translate : list (str * str)) (w : world) :
  1 <= max_workers -> 1 <= max_workers' ->
  NoDup (map fst to_translate) ->
  (forall j, client_translate_text env' j = client_translate_text env j) ->
  (forall p, write_error env' p = write_error env p) ->
  exists st st',
    translate_concurrently env parent text source_lang input_path outdir
      include_language_names max_workers to_translate w = Ok st
    /\ translate_concurrently env' parent text source_lang input_path outdir
         include_language_names max_workers' to_translate w = Ok st'
    /\ forall c,
         dict_get (results st') c = dict_get (results st) c
         /\ dict_get (errors st') c = dict_get (errors st) c
         /\ dict_get (files (now st')) (out_file input_path outdir c)
            = dict_get (files (now st)) (out_file input_path outdir c).
Proof.
  intros Hw Hw' Hnd Hsvc Hwr.
  eexists. eexists. split; [now apply translate_concurrently_ok|].
  split; [now apply translate_concurrently_ok|].
  intros c.
  assert (Hkept :
            kept input_path outdir
              (completion_loop env' parent text source_lang input_path outdir
                 include_language_names max_workers' to_translate w) c
            = kept input_path outdir
                (completion_loop env parent text source_lang input_path outdir
                   include_language_names max_workers to_translate w) c).
  { destruct (in_dec str_eq_dec c (map fst to_translate)) as [Hin|Hout].
    - apply in_map_iff in Hin. destruct Hin as ([c' n] & <- & Hin).
      apply In_nth_error in Hin. destruct Hin as [j Hj]. cbn [fst] in *.
      rewrite !(completion_loop_scheduled _ _ _ _ _ _ _ _ _ _ j c' n Hnd Hj).
      rewrite (task_same_service env env') by auto.
      now apply turn_same_writes.
    - now rewrite !completion_loop_unscheduled. }
  unfold kept in Hkept. injection Hkept as H1 H2 H3. auto.
Qed.

Lemma outcome_independent_of_schedule_witness :
  exists st st',
    translate_concurrently (stub_env (fun _ => tagging) (fun _ => None))
      stub_parent long_text (lit "en") (lit "input.txt") (lit "out") true 8
      (worklist three_languages (lit "en") []) input_txt = Ok st
    /\ translate_concurrently by_length_env
         stub_parent long_text (lit "en") (lit "input.txt") (lit "out") true 1
         (worklist three_languages (lit "en") []) input_txt = Ok st'
    /\ dict_get (results st') (lit "de") = dict_get (results st) (lit "de").
Proof.
  destruct (outcome_independent_of_schedule
              (stub_env (fun _ => tagging) (fun _ => None)) by_length_env
              stub_parent long_text (lit "en") (lit "input.txt") (lit "out") true 8 1
              (worklist three_languages (lit "en") []) input_txt)
    as (st & st' & H1 & H2 & H3); try reflexivity; try lia.
  - distinct_codes.
  - exists st, st'. split; [exact H1|]. split; [exact H2|]. apply H3.
Defined.

(** ** A document within the limit *)

(** X20.  A document of at most 4500 characters, the empty document
    included, is translated by exactly one call that carries the whole
    document; the job returns the joined translations of that call, or
    raises what the call raises. *)
Theorem translate_full_text_single_call
    (parent text target : str) (source : option str) (svc : service) :
  len text <= default_max_chars ->
  translate_full_text parent text target source svc []
  = (match svc O (chunk_request parent target source text) with
     | Ok translations => Ok (join translations)
     | Raise e => Raise e
     end,
     [chunk_request parent target source text]).
Proof.
  intros Hle. unfold translate_full_text, bind, chunk_text.
  apply Z.leb_le in Hle. rewrite Hle. rewrite translate_pieces_cons.
  cbn [length app].
  destruct (svc O (chunk_request parent target source text)) as [translations|e];
    [|reflexivity].
  cbn [translate_pieces ret]. now rewrite join_single.
Qed.

Lemma translate_full_text_single_call_witness :
  translate_full_text stub_parent [] (lit "fr") (Some (lit "en")) tagging []
  = (Ok (lit "fr:"), [chunk_request stub_parent (lit "fr") (Some (lit "en")) []]).
Proof.
  apply (translate_full_text_single_call stub_parent [] (lit "fr")
           (Some (lit "en")) tagging).
  vm_compute. discriminate.
Defined.
